(** * sourcepy: the signature-to-command-line engine of [bin/parsers.py]

    [DynamicArgumentParser] inspects a callable's parameters, declares one
    command-line argument per parameter, and turns the parsed namespace back
    into the pair [(args, kwargs)] the callable is invoked with.  This file
    embeds the class method by method and settles the properties the
    specification states about it. *)

From Stdlib Require Import Ascii.
From stdpp Require Import gmap strings pretty list fin_maps.

Set Default Proof Using "Type".

(** ** Python values and parameters *)

(** The values that travel through the parser: what a coercion returns, what
    an action stores, what a signature gives as a default. *)
#[warnings="-register-all"]
Inductive pyval :=
| PyNone
| PyBool (b : bool)
| PyInt (z : Z)
| PyStr (s : string)
| PyList (l : list pyval).

(** [inspect.Parameter.kind]: the five calling conventions of Python. *)
Inductive ParameterKind :=
| POSITIONAL_ONLY
| POSITIONAL_OR_KEYWORD
| VAR_POSITIONAL
| KEYWORD_ONLY
| VAR_KEYWORD.

#[global] Instance ParameterKind_eq_dec : EqDecision ParameterKind.
Proof. solve_decision. Defined.

(** [param.annotation]: only its comparison with [bool] is read here. *)
Inductive annotation :=
| no_annotation
| bool_annotation
| other_annotation (type_name : string).

#[global] Instance annotation_eq_dec : EqDecision annotation.
Proof. solve_decision. Defined.

(** [inspect.Parameter].  [param_default = None] stands for
    [inspect._empty]: the signature gives no default. *)
Record parameter := {
  param_name : string;
  param_kind : ParameterKind;
  param_annotation : annotation;
  param_default : option pyval
}.

(** The function [typecast_factory] returns: it has a [__name__] and is
    called on a raw token, which it may reject. *)
Record typecast := {
  typecast_name : string;
  typecast_call : string → option pyval
}.

(** ** [params_meta]: the classification built by [__init__] *)

(** The keys of [params_meta]: a parameter kind, or the string ['REQUIRED']. *)
Inductive meta_key :=
| KIND (k : ParameterKind)
| REQUIRED.

#[global] Instance meta_key_eq_dec : EqDecision meta_key.
Proof. solve_decision. Defined.

(** [defaultdict(list)]: every key reads as a list, empty until appended to. *)
Definition params_meta := meta_key → list parameter.

Definition empty_meta : params_meta := λ _, [].

(** [self.params_meta[key].append(param)] *)
Definition meta_append (meta : params_meta) (key : meta_key) (param : parameter)
  : params_meta :=
  λ k, if decide (k = key) then meta k ++ [param] else meta k.

(** [param.default == inspect._empty] *)
Definition has_no_default (param : parameter) : bool :=
  bool_decide (param_default param = None).

(** The loop body of [__init__], lines 26-30. *)
Definition classify_step (meta : params_meta) (param : parameter) : params_meta :=
  let meta := meta_append meta (KIND (param_kind param)) param in
  if has_no_default param then meta_append meta REQUIRED param else meta.

(** [__init__], lines 24-30: one pass over the signature in declaration
    order. *)
Definition __init__ (param_signatures : list parameter) : params_meta :=
  foldl classify_step empty_meta param_signatures.

(** ** Argument options *)

Inductive action :=
| store_true
| BooleanOptionalAction.

#[global] Instance action_eq_dec : EqDecision action.
Proof. solve_decision. Defined.

(** A keyword that takes either [argparse.SUPPRESS] or a value of its own. *)
Inductive suppressible (A : Type) :=
| SUPPRESS
| Given (a : A).
Arguments SUPPRESS {A}.
Arguments Given {A} a.

(** The keyword arguments handed to [add_argument]; an absent key is [None]. *)
Record options := {
  opt_action : option action;
  opt_type : option typecast;
  opt_default : option (suppressible pyval);
  opt_metavar : option string;
  opt_nargs : option string;
  opt_help : option (suppressible string)
}.

Definition no_options : options :=
  {| opt_action := None; opt_type := None; opt_default := None;
     opt_metavar := None; opt_nargs := None; opt_help := None |}.

Definition set_action (a : action) (o : options) : options :=
  {| opt_action := Some a; opt_type := opt_type o; opt_default := opt_default o;
     opt_metavar := opt_metavar o; opt_nargs := opt_nargs o; opt_help := opt_help o |}.

Definition set_type (t : typecast) (o : options) : options :=
  {| opt_action := opt_action o; opt_type := Some t; opt_default := opt_default o;
     opt_metavar := opt_metavar o; opt_nargs := opt_nargs o; opt_help := opt_help o |}.

Definition set_default (d : suppressible pyval) (o : options) : options :=
  {| opt_action := opt_action o; opt_type := opt_type o; opt_default := Some d;
     opt_metavar := opt_metavar o; opt_nargs := opt_nargs o; opt_help := opt_help o |}.

Definition set_metavar (m : string) (o : options) : options :=
  {| opt_action := opt_action o; opt_type := opt_type o; opt_default := opt_default o;
     opt_metavar := Some m; opt_nargs := opt_nargs o; opt_help := opt_help o |}.

Definition set_help (h : suppressible string) (o : options) : options :=
  {| opt_action := opt_action o; opt_type := opt_type o; opt_default := opt_default o;
     opt_metavar := opt_metavar o; opt_nargs := opt_nargs o; opt_help := Some h |}.

(** [param.annotation == bool or isinstance(param.default, bool)], line 74. *)
Definition boolean_like (param : parameter) : bool :=
  bool_decide (param_annotation param = bool_annotation)
  || match param_default param with
     | Some (PyBool _) => true
     | _ => false
     end.

(** The parameters that get [BooleanOptionalAction], lines 74-80: the
    boolean-like ones that are not positional-only. *)
Definition tri_state_toggle (param : parameter) : bool :=
  boolean_like param && bool_decide (param_kind param ≠ POSITIONAL_ONLY).

(** [str.replace(old, new)] for one-character strings. *)
Fixpoint replace (old new : Ascii.ascii) (s : string) : string :=
  match s with
  | EmptyString => EmptyString
  | String c s' =>
      String (if decide (c = old) then new else c) (replace old new s')
  end.

(** One declared argument: the name or flag given to [add_argument] and its
    keyword arguments. *)
Record argument := {
  arg_name : string;
  arg_options : options
}.

Record argument_group := {
  group_title : string;
  group_arguments : list argument
}.

(** The reserved destination of the catch-all positional, line 52. *)
Definition _positional_or_kw : string := "_positional_or_kw".

(** ** Failures

    What can stop [parse_args]: a failed lookup [cmd_args[key]], a method
    missing on the value under [_positional_or_kw], or a call of
    [self.error(message)], the parser's error exit; the parse step of line
    100 reports a missing positional through the same [self.error]. *)
Inductive exception :=
| KeyError (key : string)
| AttributeError (attribute : string)
| parser_error (message : string).

Inductive outcome (A : Type) :=
| Return (a : A)
| Raise (e : exception).
Arguments Return {A} a.
Arguments Raise {A} e.

#[global] Instance outcome_ret : MRet outcome := λ A, Return.

#[global] Instance outcome_bind : MBind outcome :=
  λ A B k m,
    match m with
    | Return a => k a
    | Raise e => Raise e
    end.

Definition required_message (name : string) : string :=
  "the following arguments are required: " +:+ name.

Section DynamicArgumentParser.

(** [converters.typecast_factory] and the built-in [str] used to format a
    default in the help text are taken as given. *)
Variable typecast_factory : parameter → option typecast.
Variable py_str : pyval → string.

(** [generate_arg_options], lines 65-97. *)
Definition generate_arg_options (param : parameter) : options :=
  let options := no_options in
  let helptext := [] in
  let typecast := typecast_factory param in
  let helptext :=
    match typecast with
    | Some t => helptext ++ [typecast_name t]
    | None => helptext
    end in
  let options :=
    if boolean_like param then
      if decide (param_kind param = POSITIONAL_ONLY)
      then set_action store_true options
      else set_action BooleanOptionalAction options
    else
      match typecast with
      | Some t => set_type t options
      | None => options
      end in
  let helptext :=
    match param_default param with
    | Some d => helptext ++ ["(default: " +:+ py_str d +:+ ")"]
    | None => helptext ++ ["(required)"]
    end in
  let options :=
    if decide (opt_action options ≠ Some BooleanOptionalAction)
    then set_default SUPPRESS options
    else options in
  let options :=
    if decide (param_kind param = POSITIONAL_OR_KEYWORD)
    then set_metavar ("/ " +:+ param_name param) options
    else options in
  let options :=
    if decide (param_kind param = KEYWORD_ONLY)
    then set_metavar "" options
    else options in
  set_help (Given (String.concat " " helptext)) options.

(** ['--' + param.name.replace('_', '-')], lines 54 and 61. *)
Definition option_string (param : parameter) : string :=
  "--" +:+ replace "_"%char "-"%char (param_name param).

(** [generate_positional_only_args], lines 43-48. *)
Definition generate_positional_only_args (meta : params_meta) : argument_group :=
  {| group_title := "positional only args";
     group_arguments :=
       (λ param, {| arg_name := param_name param;
                    arg_options := generate_arg_options param |})
         <$> meta (KIND POSITIONAL_ONLY) |}.

(** The catch-all declared at line 52:
    [add_argument('_positional_or_kw', nargs='*', default=[], help=SUPPRESS)]. *)
Definition catch_all_argument : argument :=
  {| arg_name := _positional_or_kw;
     arg_options :=
       {| opt_action := None; opt_type := None;
          opt_default := Some (Given (PyList []));
          opt_metavar := None; opt_nargs := Some "*";
          opt_help := Some SUPPRESS |} |}.

(** [generate_positional_or_keyword_args], lines 50-56. *)
Definition generate_positional_or_keyword_args (meta : params_meta)
  : argument_group :=
  {| group_title := "positional or keyword args";
     group_arguments :=
       catch_all_argument ::
       ((λ param, {| arg_name := option_string param;
                     arg_options := generate_arg_options param |})
          <$> meta (KIND POSITIONAL_OR_KEYWORD)) |}.

(** [generate_keyword_only_args], lines 58-63. *)
Definition generate_keyword_only_args (meta : params_meta) : argument_group :=
  {| group_title := "keyword only args";
     group_arguments :=
       (λ param, {| arg_name := option_string param;
                    arg_options := generate_arg_options param |})
         <$> meta (KIND KEYWORD_ONLY) |}.

(** [generate_args], lines 33-41: a group is declared only for a non-empty
    bucket. *)
Definition generate_args (meta : params_meta) : list argument_group :=
  (if meta (KIND POSITIONAL_ONLY) is [] then []
   else [generate_positional_only_args meta])
  ++ (if meta (KIND POSITIONAL_OR_KEYWORD) is [] then []
      else [generate_positional_or_keyword_args meta])
  ++ (if meta (KIND KEYWORD_ONLY) is [] then []
      else [generate_keyword_only_args meta]).

(** *** The parse step

    [super().parse_args], line 100, is the standard library's parser
    ([argparse] as of Python 3.11) run over the arguments declared above,
    for a parser built as [DynamicArgumentParser(fn)]: prefix character
    [-], the built-in [-h/--help], abbreviations allowed.  What [parse_args] below reads is the
    namespace it returns.  A string is a sequence of characters of code
    below 256.

    - An argument declared without [dest] is filed under a destination
      inferred from what it was declared as: a positional under its name,
      an option under its option string without the leading dashes, the
      other dashes turned into underscores.
    - Every declared argument whose [default] is not [SUPPRESS] starts at
      its default, which is [None] when no [default] was declared, unless an
      earlier argument has set that destination.
    - An action that fires writes its value under its destination.  A
      positional declared with [store_true] takes no token and fires on
      every parse that reaches it.  A positional declared without an action
      takes one token, and the parse ends in [self.error] when one is left
      without.

    [stored] holds what the actions that took a token or a flag of the
    command line wrote, by destination.  Where two declared arguments share
    a destination the namespace depends on the order in which their actions
    fire, which [stored] does not record: what is proved through this step
    is proved for parsers whose destinations are distinct. *)

(** [str.lstrip] for one character. *)
Fixpoint lstrip (c : Ascii.ascii) (s : string) : string :=
  match s with
  | EmptyString => EmptyString
  | String c' s' => if decide (c' = c) then lstrip c s' else s
  end.

(** The destination inferred from an option string:
    [option_string.lstrip('-').replace('-', '_')]. *)
Definition option_dest (option_string : string) : string :=
  replace "-"%char "_"%char (lstrip "-"%char option_string).

(** The option strings the option of a parameter answers to: its own and,
    for a [BooleanOptionalAction], the [--no-] form. *)
Definition option_strings (param : parameter) : list string :=
  option_string param
  :: (if decide (opt_action (generate_arg_options param)
                 = Some BooleanOptionalAction)
      then ["--no-" +:+ replace "_"%char "-"%char (param_name param)]
      else []).

(** The option strings every parser starts with. *)
Definition help_option_strings : list string := ["-h"; "--help"].

(** [add_argument] accepts every declared argument: no option string is
    declared twice, the built-in ones included, and every option has a
    destination.  Otherwise [__init__] raises and there is no parser. *)
Definition constructs (meta : params_meta) : Prop :=
  NoDup (help_option_strings
         ++ (meta (KIND POSITIONAL_OR_KEYWORD) ++ meta (KIND KEYWORD_ONLY))
            ≫= option_strings)
  ∧ Forall (λ param, option_dest (option_string param) ≠ "")
      (meta (KIND POSITIONAL_OR_KEYWORD) ++ meta (KIND KEYWORD_ONLY)).

#[global] Instance constructs_dec meta : Decision (constructs meta).
Proof. unfold constructs. apply _. Defined.

(** The destinations of the declared arguments, in the order
    [generate_args] declares them. *)
Definition destinations (meta : params_meta) : list string :=
  (param_name <$> meta (KIND POSITIONAL_ONLY))
  ++ (if meta (KIND POSITIONAL_OR_KEYWORD) is [] then []
      else _positional_or_kw
           :: ((λ param, option_dest (option_string param))
                 <$> meta (KIND POSITIONAL_OR_KEYWORD)))
  ++ ((λ param, option_dest (option_string param))
        <$> meta (KIND KEYWORD_ONLY)).

Definition default_entry (o : options) : option pyval :=
  match opt_default o with
  | Some SUPPRESS => None
  | Some (Given v) => Some v
  | None => Some PyNone
  end.

(** A default is set only where the namespace has no attribute yet. *)
Definition init_default (dest : string) (o : options)
    (namespace : gmap string pyval) : gmap string pyval :=
  match namespace !! dest, default_entry o with
  | None, Some v => <[dest := v]> namespace
  | _, _ => namespace
  end.

(** The default of a positional, filed under the parameter's name. *)
Definition init_positional_default (namespace : gmap string pyval)
    (param : parameter) : gmap string pyval :=
  init_default (param_name param) (generate_arg_options param) namespace.

(** The default of an option, filed under the destination of its option
    string. *)
Definition init_param_default (namespace : gmap string pyval)
    (param : parameter) : gmap string pyval :=
  init_default (option_dest (option_string param))
    (generate_arg_options param) namespace.

(** The defaults of the declared arguments, in the order [generate_args]
    declares them. *)
Definition namespace_defaults (meta : params_meta) : gmap string pyval :=
  let namespace :=
    foldl init_positional_default ∅ (meta (KIND POSITIONAL_ONLY)) in
  let namespace :=
    if meta (KIND POSITIONAL_OR_KEYWORD) is [] then namespace
    else
      foldl init_param_default
        (init_default _positional_or_kw (arg_options catch_all_argument) namespace)
        (meta (KIND POSITIONAL_OR_KEYWORD)) in
  foldl init_param_default namespace (meta (KIND KEYWORD_ONLY)).

(** The positionals declared with [store_true]: when no positional is left
    without its token each of them fires, and writes [True] under the
    parameter's name. *)
Definition presence_flags (meta : params_meta) : gmap string pyval :=
  list_to_map
    ((λ param, (param_name param, PyBool true))
       <$> filter (λ param, opt_action (generate_arg_options param)
                            = Some store_true)
             (meta (KIND POSITIONAL_ONLY))).

(** The positionals the parse did not reach: positionals are matched in
    declaration order, so that the first one that takes a token and was left
    without stops the match, for itself and for every positional after
    it. *)
Fixpoint unmatched_positionals (params : list parameter)
    (stored : gmap string pyval) : list parameter :=
  match params with
  | [] => []
  | param :: params' =>
      if decide (opt_action (generate_arg_options param) = None
                 ∧ stored !! param_name param = None)
      then params
      else unmatched_positionals params' stored
  end.

Definition missing_positionals (meta : params_meta)
    (stored : gmap string pyval) : list parameter :=
  unmatched_positionals (meta (KIND POSITIONAL_ONLY)) stored.

(** The name a missing positional is reported under: its [metavar] when it
    has one, its destination otherwise. *)
Definition positional_display (param : parameter) : string :=
  default (param_name param) (opt_metavar (generate_arg_options param)).

(** [vars(super().parse_args(...))], line 100. *)
Definition super_parse_args (meta : params_meta) (stored : gmap string pyval)
  : outcome (gmap string pyval) :=
  match missing_positionals meta stored with
  | [] => Return (presence_flags meta ∪ stored ∪ namespace_defaults meta)
  | missing =>
      Raise (parser_error
               (required_message
                  (String.concat ", " (positional_display <$> missing))))
  end.

(** *** Tokens and positionals

    How the parse step reads the tokens of [argv] when the signature is
    positional-only, so that [-h] and [--help] are the only options. *)

(** [arg_string.split('=', 1)[0]] *)
Fixpoint before_equals (s : string) : string :=
  match s with
  | EmptyString => EmptyString
  | String c s' =>
      if decide (c = "="%char) then EmptyString else String c (before_equals s')
  end.

Fixpoint has_char (c : Ascii.ascii) (s : string) : bool :=
  match s with
  | EmptyString => false
  | String c' s' => bool_decide (c' = c) || has_char c s'
  end.

Definition is_digit (c : Ascii.ascii) : bool :=
  let n := Ascii.nat_of_ascii c in (48 <=? n) && (n <=? 57).

Fixpoint all_digits (s : string) : bool :=
  match s with
  | EmptyString => true
  | String c s' => is_digit c && all_digits s'
  end.

(** [\d+] *)
Definition digits (s : string) : bool :=
  match s with
  | EmptyString => false
  | _ => all_digits s
  end.

(** [\d*\.\d+] *)
Fixpoint decimal (s : string) : bool :=
  match s with
  | EmptyString => false
  | String c s' =>
      if decide (c = "."%char) then digits s' else is_digit c && decimal s'
  end.

(** The string without the newline that [$] lets pass at its end. *)
Fixpoint chomp (s : string) : string :=
  match s with
  | EmptyString => EmptyString
  | String c s' =>
      match s' with
      | EmptyString => if decide (c = "010"%char) then EmptyString else s
      | _ => String c (chomp s')
      end
  end.

(** [_negative_number_matcher]: [^-\d+$|^-\d*\.\d+$]. *)
Definition negative_number (s : string) : bool :=
  match chomp s with
  | String "-"%char body => digits body || decimal body
  | _ => false
  end.

(** [_get_option_tuples]: the option strings a token of two characters or
    more, the first a dash, may stand for. *)
Definition _get_option_tuples (option_strings : list string)
    (arg_string : string) : list string :=
  match arg_string with
  | String _ (String "-"%char _) =>
      filter (λ o, String.prefix (before_equals arg_string) o = true)
        option_strings
  | _ =>
      filter (λ o, o = String.substring 0 2 arg_string
                   ∨ String.prefix arg_string o = true)
        option_strings
  end.

(** How a token other than [--] is read: as an argument (['A']) or as an
    option (['O']). *)
Inductive token_kind :=
| argument_token
| option_token.

#[global] Instance token_kind_eq_dec : EqDecision token_kind.
Proof. solve_decision. Defined.

(** [_parse_optional].  No option string of these parsers looks like a
    negative number. *)
Definition _parse_optional (option_strings : list string)
    (arg_string : string) : token_kind :=
  match arg_string with
  | EmptyString => argument_token
  | String c rest =>
      if negb (bool_decide (c = "-"%char)) then argument_token
      else if bool_decide (arg_string ∈ option_strings) then option_token
      else if bool_decide (rest = EmptyString) then argument_token
      else if has_char "="%char arg_string
              && bool_decide (before_equals arg_string ∈ option_strings)
           then option_token
      else if negb (bool_decide
                      (_get_option_tuples option_strings arg_string = []))
           then option_token
      else if negative_number arg_string then argument_token
      else if has_char " "%char arg_string then argument_token
      else option_token
  end.

(** One place of [arg_strings_pattern]: an argument, or the [-] that stands
    for the first [--]. *)
Inductive pattern_item :=
| Arg (arg_string : string)
| Separator.

(** The pattern of an [argv] without options; every token after the first
    [--] is an argument.  A token read as an option ends the parse: [-h] or
    [--help] prints the help and exits, anything else is an error. *)
Fixpoint arg_strings_pattern (option_strings : list string)
    (argv : list string) : option (list pattern_item) :=
  match argv with
  | [] => Some []
  | arg_string :: argv' =>
      if decide (arg_string = "--") then Some (Separator :: (Arg <$> argv'))
      else
        match _parse_optional option_strings arg_string with
        | argument_token =>
            (Arg arg_string ::.) <$> arg_strings_pattern option_strings argv'
        | option_token => None
        end
  end.

(** [-*] at the head of a pattern that holds at most one [-]. *)
Definition skip_separator (items : list pattern_item)
  : bool * list pattern_item :=
  match items with
  | Separator :: items' => (true, items')
  | _ => (false, items)
  end.

(** [list.remove]: the list without the first occurrence of [x]. *)
Fixpoint remove_first (x : string) (l : list string) : list string :=
  match l with
  | [] => []
  | y :: l' => if decide (y = x) then l' else y :: remove_first x l'
  end.

(** The value a declared argument stores for a token: the [type] applied
    to it, or the raw string when no [type] was declared. *)
Definition convert (o : options) (token : string) : option pyval :=
  match opt_type o with
  | Some t => typecast_call t token
  | None => Some (PyStr token)
  end.

(** [_get_values] for a positional without [nargs]: the first [--] among
    its strings is dropped; one string left gives its value, anything else a
    list. *)
Definition _get_values (o : options) (arg_strings : list string)
  : option pyval :=
  match remove_first "--" arg_strings with
  | [arg_string] => convert o arg_string
  | arg_strings => PyList <$> mapM (convert o) arg_strings
  end.

(** [consume_positionals]: each positional matches [-*A-*], or [-*-*] when
    its action takes no token, from the left.  A positional left without a
    token, a rejected token or a token left over ends the parse. *)
Fixpoint consume_positionals (params : list parameter)
    (items : list pattern_item) (stored : gmap string pyval)
  : option (gmap string pyval) :=
  match params with
  | [] => if items is [] then Some stored else None
  | param :: params' =>
      let '(leading, items) := skip_separator items in
      match opt_action (generate_arg_options param), items with
      | Some _, _ => consume_positionals params' items stored
      | None, Arg arg_string :: items =>
          let '(trailing, items) := skip_separator items in
          match _get_values (generate_arg_options param)
                  ((if leading then ["--"] else [])
                   ++ arg_string :: (if trailing then ["--"] else [])) with
          | Some value =>
              consume_positionals params' items
                (<[param_name param := value]> stored)
          | None => None
          end
      | None, _ => None
      end
  end.

(** What the tokens of [argv] store for the positionals [params] when these
    are all the parser declares; [None] when the parse ends without a
    namespace. *)
Definition store_positionals (params : list parameter) (argv : list string)
  : option (gmap string pyval) :=
  items ← arg_strings_pattern help_option_strings argv;
  consume_positionals params items ∅.

End DynamicArgumentParser.

(** ** [parse_args]: from the parsed namespace to [(args, kwargs)] *)

(** A [for] loop whose body may raise. *)
Fixpoint for_each {A S : Type} (body : S → A → outcome S) (l : list A) (s : S)
  : outcome S :=
  match l with
  | [] => Return s
  | x :: l' => s' ← body s x ; for_each body l' s'
  end.

(** The three objects the loops of [parse_args] read and update. *)
Record resolution := {
  cmd_args : gmap string pyval;
  args : list pyval;
  kwargs : gmap string pyval
}.

(** Lines 103-105. *)
Definition positional_only_step (st : resolution) (param : parameter)
  : outcome resolution :=
  match cmd_args st !! param_name param with
  | Some value =>
      Return {| cmd_args := cmd_args st;
                args := args st ++ [value];
                kwargs := kwargs st |}
  | None => Raise (KeyError (param_name param))
  end.

(** Lines 106-115.  [pop(0)] shortens the list held under
    [_positional_or_kw] in place; the [IndexError] of an empty list is
    caught and nothing changes. *)
Definition positional_or_keyword_step (st : resolution) (param : parameter)
  : outcome resolution :=
  match cmd_args st !! param_name param with
  | Some value =>
      Return {| cmd_args := cmd_args st;
                args := args st;
                kwargs := <[param_name param := value]> (kwargs st) |}
  | None =>
      match cmd_args st !! _positional_or_kw with
      | None => Raise (KeyError _positional_or_kw)
      | Some (PyList (raw_value :: rest)) =>
          Return {| cmd_args :=
                      <[param_name param := raw_value]>
                        (<[_positional_or_kw := PyList rest]> (cmd_args st));
                    args := args st;
                    kwargs := <[param_name param := raw_value]> (kwargs st) |}
      | Some (PyList []) => Return st
      | Some _ => Raise (AttributeError "pop")
      end
  end.

(** Lines 116-118. *)
Definition keyword_only_step (st : resolution) (param : parameter)
  : outcome resolution :=
  match cmd_args st !! param_name param with
  | Some value =>
      Return {| cmd_args := cmd_args st;
                args := args st;
                kwargs := <[param_name param := value]> (kwargs st) |}
  | None => Return st
  end.

(** Lines 120-122: [self.error] leaves at the first name that is not a key
    of [cmd_args]. *)
Definition required_step (st : resolution) (param : parameter)
  : outcome resolution :=
  match cmd_args st !! param_name param with
  | Some _ => Return st
  | None => Raise (parser_error (required_message (param_name param)))
  end.

(** The three binding loops, lines 101-118. *)
Definition bind_arguments (meta : params_meta) (parsed : gmap string pyval)
  : outcome resolution :=
  st ← for_each positional_only_step (meta (KIND POSITIONAL_ONLY))
         {| cmd_args := parsed; args := []; kwargs := ∅ |} ;
  st ← for_each positional_or_keyword_step (meta (KIND POSITIONAL_OR_KEYWORD)) st ;
  for_each keyword_only_step (meta (KIND KEYWORD_ONLY)) st.

(** [parse_args], lines 99-124, from the namespace of line 100 on. *)
Definition parse_args (meta : params_meta) (parsed : gmap string pyval)
  : outcome (list pyval * gmap string pyval) :=
  st ← bind_arguments meta parsed ;
  st ← for_each required_step (meta REQUIRED) st ;
  Return (args st, kwargs st).

(** [parse_args] as a whole, lines 99-124: the parse step of line 100, then
    the loops over its namespace. *)
Definition parse_command_line (typecast_factory : parameter → option typecast)
    (py_str : pyval → string) (meta : params_meta)
    (stored : gmap string pyval) : outcome (list pyval * gmap string pyval) :=
  parsed ← super_parse_args typecast_factory py_str meta stored ;
  parse_args meta parsed.

(** The parameters of a list whose named flag left no entry in [cmd_args]. *)
Definition unset_parameters (st : resolution) (params : list parameter)
  : list parameter :=
  filter (λ param, cmd_args st !! param_name param = None) params.

(** The required parameters whose name is not a key of [cmd_args]. *)
Definition still_unbound (meta : params_meta) (st : resolution) : list parameter :=
  filter (λ param, cmd_args st !! param_name param = None) (meta REQUIRED).

(** The catch-all entry of a later state: the entry of the namespace, or a
    list where the namespace held a list. *)
Definition catch_all_kept (parsed : gmap string pyval) (st : resolution) : Prop :=
  cmd_args st !! _positional_or_kw = parsed !! _positional_or_kw
  ∨ ∃ tokens rest,
      parsed !! _positional_or_kw = Some (PyList tokens)
      ∧ cmd_args st !! _positional_or_kw = Some (PyList rest).

(** Where a value comes from: the entry of the namespace under that name,
    or, for a positional-or-keyword parameter without one, a token of the
    catch-all list the namespace holds. *)
Definition from_namespace (meta : params_meta) (parsed : gmap string pyval)
    (k : string) (v : pyval) : Prop :=
  parsed !! k = Some v
  ∨ (parsed !! k = None
     ∧ (∃ param, param ∈ meta (KIND POSITIONAL_OR_KEYWORD)
                 ∧ param_name param = k)
     ∧ ∃ tokens, parsed !! _positional_or_kw = Some (PyList tokens)
                 ∧ v ∈ tokens).

(** What the binding loops keep true of their state. *)
Record bound_from_namespace (meta : params_meta) (parsed : gmap string pyval)
    (st : resolution) : Prop := {
  bound_parameter k v :
    kwargs st !! k = Some v →
    (∃ param, (param ∈ meta (KIND POSITIONAL_OR_KEYWORD)
               ∨ param ∈ meta (KIND KEYWORD_ONLY))
              ∧ param_name param = k)
    ∧ (k ≠ _positional_or_kw → cmd_args st !! k = Some v);
  entry_origin k v :
    k ≠ _positional_or_kw → cmd_args st !! k = Some v →
    from_namespace meta parsed k v;
  catch_all_suffix l :
    cmd_args st !! _positional_or_kw = Some (PyList l) →
    ∃ tokens, parsed !! _positional_or_kw = Some (PyList tokens)
              ∧ l `suffix_of` tokens;
  entries_kept k :
    is_Some (parsed !! k) → is_Some (cmd_args st !! k)
}.

(** ** [src/source.py]: stub names *)

(** [escape], lines 44-48, on [str(path)]: each character of ['. /'] in turn
    is replaced by an underscore. *)
Definition escape (path : string) : string :=
  foldl (λ escaped c, replace c "_"%char escaped) path
    ["."%char; " "%char; "/"%char].

(** The name of the stub file, line 94: [escape(module_path) + '.sh']. *)
Definition stub_name (module_path : string) : string :=
  escape module_path +:+ ".sh".

(** The character [escape] leaves in the place of [c]. *)
Definition escaped_char (c : Ascii.ascii) : Ascii.ascii :=
  if bool_decide (c = "."%char ∨ c = " "%char ∨ c = "/"%char)
  then "_"%char else c.

(** ** Sample signatures and collaborators *)

(** Modelled from the spec: a Type Coercion service (section 6) that gives a
    declared-integer parameter a function from decimal digits to an integer,
    rejecting any other token, and gives every other parameter no coercion. *)
Fixpoint digits_value (s : string) (acc : Z) : option Z :=
  match s with
  | EmptyString => Some acc
  | String c s' =>
      let n := Z.of_nat (Ascii.nat_of_ascii c) in
      if bool_decide (48 ≤ n ≤ 57)%Z
      then digits_value s' (10 * acc + (n - 48))%Z
      else None
  end.

Definition int_typecast : typecast :=
  {| typecast_name := "int";
     typecast_call := λ token,
       match token with
       | EmptyString => None
       | _ => PyInt <$> digits_value token 0
       end |}.

Definition sample_typecast_factory (param : parameter) : option typecast :=
  if decide (param_annotation param = other_annotation "int")
  then Some int_typecast
  else None.

(** A rendering of defaults for the help text. *)
Definition sample_str (v : pyval) : string :=
  match v with
  | PyNone => "None"
  | PyBool true => "True"
  | PyBool false => "False"
  | PyInt z => pretty z
  | PyStr s => s
  | PyList _ => "[...]"
  end.

Definition plain (name : string) (kind : ParameterKind) (default : option pyval)
  : parameter :=
  {| param_name := name; param_kind := kind;
     param_annotation := no_annotation; param_default := default |}.

Definition annotated (name : string) (kind : ParameterKind) (a : annotation)
    (default : option pyval) : parameter :=
  {| param_name := name; param_kind := kind;
     param_annotation := a; param_default := default |}.

(** [def f(a, /, b=1, *, c)] *)
Definition sig_f : list parameter :=
  [plain "a" POSITIONAL_ONLY None;
   plain "b" POSITIONAL_OR_KEYWORD (Some (PyInt 1));
   plain "c" KEYWORD_ONLY None].

(** [def g( *, c, k)] *)
Definition sig_ck : list parameter :=
  [plain "c" KEYWORD_ONLY None; plain "k" KEYWORD_ONLY None].

(** [def h(x=0, y=0)] *)
Definition sig_xy : list parameter :=
  [plain "x" POSITIONAL_OR_KEYWORD (Some (PyInt 0));
   plain "y" POSITIONAL_OR_KEYWORD (Some (PyInt 0))].

(** [def r( *args)] *)
Definition sig_star : list parameter :=
  [plain "args" VAR_POSITIONAL None].

(** [def t( *, flag: bool)] *)
Definition sig_flag_kw : list parameter :=
  [annotated "flag" KEYWORD_ONLY bool_annotation None].

(** [def u(flag: bool, /)] *)
Definition sig_flag_po : list parameter :=
  [annotated "flag" POSITIONAL_ONLY bool_annotation None].

(** [def s(s, /)] *)
Definition sig_s : list parameter :=
  [plain "s" POSITIONAL_ONLY None].

(** [def f(_v=False)] *)
Definition sig_uv : list parameter :=
  [plain "_v" POSITIONAL_OR_KEYWORD (Some (PyBool false))].

(** [def lu( *, _flag: bool)] *)
Definition sig_uflag : list parameter :=
  [annotated "_flag" KEYWORD_ONLY bool_annotation None].

(** [def v(n: int, s, /)] *)
Definition sig_ns : list parameter :=
  [annotated "n" POSITIONAL_ONLY (other_annotation "int") None;
   plain "s" POSITIONAL_ONLY None].

(** [def w(n: int = 0, verbose=False)] *)
Definition sig_n_verbose : list parameter :=
  [annotated "n" POSITIONAL_OR_KEYWORD (other_annotation "int") (Some (PyInt 0));
   plain "verbose" POSITIONAL_OR_KEYWORD (Some (PyBool false))].

(** [def f(a, /, b=1, *, c)] called with the token 1, the flag [--b 7] and
    two more tokens. *)
Definition parsed_f_named : gmap string pyval :=
  {["a" := PyStr "1"; "b" := PyInt 7;
    _positional_or_kw := PyList [PyStr "5"; PyStr "6"]]}.

(** The same call without [--b]. *)
Definition parsed_f_tokens : gmap string pyval :=
  {["a" := PyStr "1"; _positional_or_kw := PyList [PyStr "5"; PyStr "6"]]}.

(** The parse step and the whole of [parse_args] with the sample
    collaborators. *)
Abbreviation sample_parsed sig stored :=
  (super_parse_args sample_typecast_factory sample_str (__init__ sig) stored).

Abbreviation sample_parse sig stored :=
  (parse_command_line sample_typecast_factory sample_str (__init__ sig) stored).

(** * Properties *)

(** ** Classification *)

Lemma classify_step_kind meta param k :
  classify_step meta param (KIND k) =
  meta (KIND k) ++ (if decide (param_kind param = k) then [param] else []).
Proof.
  unfold classify_step, meta_append.
  destruct (has_no_default param); repeat case_decide;
    try congruence; by rewrite ?app_nil_r.
Qed.

Lemma classify_step_required meta param :
  classify_step meta param REQUIRED =
  meta REQUIRED ++ (if decide (param_default param = None) then [param] else []).
Proof.
  unfold classify_step, meta_append, has_no_default.
  case_bool_decide; repeat case_decide; try congruence; by rewrite ?app_nil_r.
Qed.

Lemma foldl_classify_kind sig : ∀ meta k,
  foldl classify_step meta sig (KIND k) =
  meta (KIND k) ++ filter (λ param, param_kind param = k) sig.
Proof.
  induction sig as [|param sig IH]; intros meta k; simpl.
  - by rewrite app_nil_r.
  - rewrite IH, classify_step_kind, filter_cons.
    case_decide; by rewrite <- ?app_assoc, ?app_nil_r.
Qed.

Lemma foldl_classify_required sig : ∀ meta,
  foldl classify_step meta sig REQUIRED =
  meta REQUIRED ++ filter (λ param, param_default param = None) sig.
Proof.
  induction sig as [|param sig IH]; intros meta; simpl.
  - by rewrite app_nil_r.
  - rewrite IH, classify_step_required, filter_cons.
    case_decide; by rewrite <- ?app_assoc, ?app_nil_r.
Qed.

Lemma init_kind sig k :
  __init__ sig (KIND k) = filter (λ param, param_kind param = k) sig.
Proof. unfold __init__. by rewrite foldl_classify_kind. Qed.

Lemma init_required sig :
  __init__ sig REQUIRED = filter (λ param, param_default param = None) sig.
Proof. unfold __init__. by rewrite foldl_classify_required. Qed.

(** C6, as the code has it.  Classification is one pass that files every
    parameter under the bucket of its own kind and under no other; each
    bucket, the three the parser reads included, holds the parameters of its
    kind in declaration order, none dropped and none repeated; and a
    parameter is in the required list exactly when it has no default.  The
    buckets are five: a var-positional or var-keyword parameter goes to a
    bucket of its own. *)
Theorem classification_buckets (sig : list parameter) :
  (∀ k, __init__ sig (KIND k) = filter (λ param, param_kind param = k) sig)
  ∧ __init__ sig REQUIRED = filter (λ param, param_default param = None) sig
  ∧ (∀ param k, param ∈ __init__ sig (KIND k) ↔ param ∈ sig ∧ param_kind param = k)
  ∧ (∀ param, param ∈ __init__ sig REQUIRED ↔ param ∈ sig ∧ param_default param = None).
Proof.
  split_and!.
  - apply init_kind.
  - apply init_required.
  - intros param k. rewrite init_kind, list_elem_of_filter. tauto.
  - intros param. rewrite init_required, list_elem_of_filter. tauto.
Qed.

(** C6 fails as stated: the one parameter of [def r( *args)] is in none of the
    three kind buckets. *)
Lemma var_positional_in_no_cli_bucket :
  let param := plain "args" VAR_POSITIONAL None in
  param ∈ sig_star
  ∧ __init__ sig_star (KIND POSITIONAL_ONLY) = []
  ∧ __init__ sig_star (KIND POSITIONAL_OR_KEYWORD) = []
  ∧ __init__ sig_star (KIND KEYWORD_ONLY) = []
  ∧ __init__ sig_star (KIND VAR_POSITIONAL) = [param]
  ∧ __init__ sig_star REQUIRED = [param].
Proof. split_and!; [apply list_elem_of_singleton|..]; reflexivity. Qed.

(** ** Loops *)

Section Loops.

Context {A S : Type} (body : S → A → outcome S).

Lemma for_each_app l1 l2 s :
  for_each body (l1 ++ l2) s = s' ← for_each body l1 s; for_each body l2 s'.
Proof.
  revert s. induction l1 as [|x l1 IH]; intros s; simpl; [done|].
  destruct (body s x); simpl; [apply IH | done].
Qed.

(** A property kept by every iteration is kept by the loop. *)
Lemma for_each_invariant (P : S → Prop) l s s' :
  (∀ x t t', x ∈ l → P t → body t x = Return t' → P t') →
  P s → for_each body l s = Return s' → P s'.
Proof.
  revert s. induction l as [|x l IH]; intros s Hstep Hs; simpl.
  - by intros [= <-].
  - destruct (body s x) as [t|] eqn:Hx; simpl; [|done].
    apply IH.
    + intros y u u' Hy. apply Hstep. by right.
    + eapply Hstep; [by left| |]; done.
Qed.

(** Whatever the loop raises, one of its iterations raised. *)
Lemma for_each_raise (P : S → Prop) l s e :
  (∀ x t t', x ∈ l → P t → body t x = Return t' → P t') →
  P s → for_each body l s = Raise e →
  ∃ x t, x ∈ l ∧ P t ∧ body t x = Raise e.
Proof.
  revert s. induction l as [|x l IH]; intros s Hstep Hs; simpl; [done|].
  destruct (body s x) as [t|e'] eqn:Hx; simpl.
  - intros He. destruct (IH t) as (y & u & Hy & Hu & Hraise); try done.
    + intros y u u' Hy. apply Hstep. by right.
    + eapply Hstep; [by left| |]; done.
    + exists y, u. split_and!; [by right|done..].
  - intros [= ->]. exists x, s. split_and!; [by left|done..].
Qed.

End Loops.

(** ** The binding loops *)

(** The loop bodies of lines 103-118. *)
Definition binding_step (body : resolution → parameter → outcome resolution)
  : Prop :=
  body = positional_only_step ∨ body = positional_or_keyword_step
  ∨ body = keyword_only_step.

(** How a later state relates to an earlier one: keys are only added, a
    value outside the catch-all is never overwritten, every new key of
    [cmd_args] is also bound in [kwargs], and the catch-all stays a list. *)
Record grows (st st' : resolution) : Prop := {
  grows_keys k :
    is_Some (cmd_args st !! k) → is_Some (cmd_args st' !! k);
  grows_values k v :
    k ≠ _positional_or_kw → cmd_args st !! k = Some v → cmd_args st' !! k = Some v;
  grows_kwargs k :
    is_Some (kwargs st !! k) → is_Some (kwargs st' !! k);
  grows_new k :
    is_Some (cmd_args st' !! k) →
    is_Some (cmd_args st !! k) ∨ is_Some (kwargs st' !! k);
  grows_catch_all l :
    cmd_args st !! _positional_or_kw = Some (PyList l) →
    ∃ l', cmd_args st' !! _positional_or_kw = Some (PyList l')
}.

Lemma grows_refl st : grows st st.
Proof. split; eauto. Qed.

Lemma grows_trans st1 st2 st3 : grows st1 st2 → grows st2 st3 → grows st1 st3.
Proof.
  intros [K1 V1 W1 N1 C1] [K2 V2 W2 N2 C2]. split; eauto.
  - intros k Hk. destruct (N2 k Hk) as [Hk2|]; [|by right].
    destruct (N1 k Hk2); [by left|right; eauto].
  - intros l Hl. destruct (C1 l Hl) as [l' Hl']. eauto.
Qed.

Ltac step_cases :=
  repeat match goal with
  | H : binding_step _ |- _ => destruct H as [->|[->| ->]]
  | H : context [positional_only_step] |- _ => unfold positional_only_step in H
  | H : context [positional_or_keyword_step] |- _ =>
      unfold positional_or_keyword_step in H
  | H : context [keyword_only_step] |- _ => unfold keyword_only_step in H
  | H : context [required_step] |- _ => unfold required_step in H
  end;
  repeat case_match; simplify_eq.

Lemma step_grows body st param st' :
  binding_step body → body st param = Return st' → grows st st'.
Proof.
  intros Hbody Hstep. step_cases; try apply grows_refl.
  all: split; simpl; intros; eauto.
  all: try (rewrite lookup_insert_is_Some'; eauto; fail).
  - rewrite !lookup_insert_is_Some'. eauto.
  - rewrite lookup_insert_ne by (intros <-; congruence).
    by rewrite lookup_insert_ne.
  - rewrite !lookup_insert_is_Some' in *.
    destruct H1 as [|[<-|]]; eauto.
  - rewrite lookup_insert_ne by (intros Heq; rewrite Heq in *; congruence).
    rewrite lookup_insert_eq. eauto.
Qed.

Lemma pass_grows body l st st' :
  binding_step body → for_each body l st = Return st' → grows st st'.
Proof.
  intros Hbody. apply (for_each_invariant body (grows st)); [|apply grows_refl].
  intros x t t' _ Ht Hx. eapply grows_trans; [done|]. by eapply step_grows.
Qed.

(** The first loop reads one value per positional-only parameter and
    changes nothing else. *)
Lemma positional_only_pass l : ∀ st st',
  for_each positional_only_step l st = Return st' →
  cmd_args st' = cmd_args st ∧ kwargs st' = kwargs st
  ∧ ∃ vs, args st' = args st ++ vs
          ∧ Forall2 (λ param v, cmd_args st !! param_name param = Some v) l vs.
Proof.
  induction l as [|param l IH]; intros st st'; simpl.
  - intros [= <-]. split_and!; try done. exists []. by rewrite app_nil_r.
  - destruct (positional_only_step st param) as [t|] eqn:Hx; simpl; [|done].
    unfold positional_only_step in Hx.
    destruct (cmd_args st !! param_name param) as [v|] eqn:Hv; simplify_eq.
    intros (Hc & Hk & vs & Ha & Hvs)%IH. simpl in *.
    split_and!; try done. exists (v :: vs).
    rewrite Ha, <- app_assoc. split; [done|]. by constructor.
Qed.

Lemma positional_only_pass_total l : ∀ st,
  Forall (λ param, is_Some (cmd_args st !! param_name param)) l →
  ∃ st', for_each positional_only_step l st = Return st'.
Proof.
  induction l as [|param l IH]; intros st Hl; simpl; [eauto|].
  apply Forall_cons in Hl as [[v Hv] Hl].
  assert (positional_only_step st param =
          Return {| cmd_args := cmd_args st; args := args st ++ [v];
                    kwargs := kwargs st |}) as ->.
  { unfold positional_only_step. by rewrite Hv. }
  simpl. by apply IH.
Qed.

Lemma positional_only_pass_raise l : ∀ st e,
  for_each positional_only_step l st = Raise e →
  ∃ param, param ∈ l ∧ cmd_args st !! param_name param = None
           ∧ e = KeyError (param_name param).
Proof.
  induction l as [|param l IH]; intros st e; simpl; [done|].
  destruct (positional_only_step st param) as [t|e'] eqn:Hx; simpl;
    unfold positional_only_step in Hx;
    destruct (cmd_args st !! param_name param) as [v|] eqn:Hv; simplify_eq.
  - intros (q & Hq & Hnone & ->)%IH. exists q. split_and!; [by right|done..].
  - intros [= <-]. exists param. split_and!; [by left|done..].
Qed.

(** The second and third loops leave the positional list alone. *)
Lemma keyword_pass_args body l st st' :
  body = positional_or_keyword_step ∨ body = keyword_only_step →
  for_each body l st = Return st' → args st' = args st.
Proof.
  intros Hbody.
  apply (for_each_invariant body (λ t, args t = args st)); [|done].
  intros x t t' _ Ht Hx. rewrite <- Ht.
  destruct Hbody as [-> | ->]; step_cases; done.
Qed.

(** A parameter whose name is a key of [cmd_args] when its loop starts is a
    key of [kwargs] when the loop ends. *)
Lemma keyword_pass_binds body l : ∀ st st' param,
  body = positional_or_keyword_step ∨ body = keyword_only_step →
  for_each body l st = Return st' →
  param ∈ l → is_Some (cmd_args st !! param_name param) →
  is_Some (kwargs st' !! param_name param).
Proof.
  induction l as [|x l IH]; intros st st' param Hbody; simpl;
    [by intros _ ?%elem_of_nil|].
  destruct (body st x) as [t|] eqn:Hx; simpl; [|done].
  assert (binding_step body) as Hstep by (unfold binding_step; tauto).
  intros Hrest [->|Hin]%elem_of_cons [v Hv].
  - eapply grows_kwargs; [by eapply pass_grows|].
    destruct Hbody as [-> | ->]; step_cases; simpl;
      rewrite lookup_insert_eq; eauto.
  - eapply IH; [done..|].
    eapply grows_keys; [by eapply step_grows|]. eauto.
Qed.

(** A value the namespace holds under a name other than the catch-all is the
    only value the loops bind under that name, and they bind it for every
    parameter of that name they go through. *)
Lemma keyword_pass_value body k v l : ∀ st st',
  body = positional_or_keyword_step ∨ body = keyword_only_step →
  k ≠ _positional_or_kw →
  for_each body l st = Return st' →
  cmd_args st !! k = Some v →
  kwargs st !! k = None ∨ kwargs st !! k = Some v →
  (kwargs st' !! k = None ∨ kwargs st' !! k = Some v)
  ∧ (∀ param, param ∈ l → param_name param = k → kwargs st' !! k = Some v).
Proof.
  induction l as [|x l IH]; intros st st' Hbody Hk; simpl.
  - intros [= <-] _ Hkw. split; [done|]. by intros ? ?%elem_of_nil.
  - destruct (body st x) as [t|] eqn:Hx; simpl; [|done].
    intros Hrest Hv Hkw.
    assert (cmd_args t !! k = Some v) as Hv'.
    { eapply grows_values; [eapply step_grows; [|done]|done..].
      unfold binding_step; tauto. }
    assert ((kwargs t !! k = None ∨ kwargs t !! k = Some v)
            ∧ (param_name x = k → kwargs t !! k = Some v)) as [Hkw' Hx'].
    { destruct Hbody as [-> | ->]; step_cases; simpl;
        try (split; [done|intros ?; congruence]).
      all: destruct (decide (param_name x = k)) as [Heq|Hne];
        [rewrite Heq in *; rewrite lookup_insert_eq; split; [right|intros _];
         congruence
        |rewrite lookup_insert_ne by done; split; [done|congruence]]. }
    destruct (IH t st' Hbody Hk Hrest Hv' Hkw') as [Hfinal Hothers].
    split; [done|]. intros param [->|Hin]%elem_of_cons Hname; [|eauto].
    destruct Hfinal as [Hnone|]; [|done].
    assert (is_Some (kwargs st' !! k)) as [? ?]; [|congruence].
    eapply grows_kwargs; [eapply pass_grows; [|done]|].
    { unfold binding_step; tauto. }
    rewrite Hx'; eauto.
Qed.

(** The second loop cannot raise while the catch-all holds a list, and the
    third never raises. *)
Lemma positional_or_keyword_pass_total l : ∀ st tokens,
  cmd_args st !! _positional_or_kw = Some (PyList tokens) →
  ∃ st', for_each positional_or_keyword_step l st = Return st'.
Proof.
  induction l as [|x l IH]; intros st tokens Htokens; simpl; [eauto|].
  assert (∃ t, positional_or_keyword_step st x = Return t) as [t Ht].
  { unfold positional_or_keyword_step. rewrite Htokens.
    destruct (cmd_args st !! param_name x); [eauto|].
    destruct tokens; eauto. }
  rewrite Ht. simpl.
  destruct (grows_catch_all st t) with (l := tokens) as [tokens' ?]; [|done|].
  { eapply step_grows; [|done]. unfold binding_step; tauto. }
  by eapply IH.
Qed.

Lemma keyword_only_pass_total l : ∀ st,
  ∃ st', for_each keyword_only_step l st = Return st'.
Proof.
  induction l as [|x l IH]; intros st; simpl; [eauto|].
  destruct (keyword_only_step st x) as [t|] eqn:Hx; simpl; [apply IH|].
  unfold keyword_only_step in Hx. by destruct (cmd_args st !! param_name x).
Qed.

(** The last loop stops at the first required parameter whose name is not
    a key of [cmd_args], and changes nothing. *)
Lemma required_pass l st :
  for_each required_step l st =
  match filter (λ param, cmd_args st !! param_name param = None) l with
  | [] => Return st
  | param :: _ => Raise (parser_error (required_message (param_name param)))
  end.
Proof.
  induction l as [|x l IH]; simpl; [done|].
  rewrite filter_cons.
  destruct (required_step st x) as [t|e] eqn:Hx; simpl;
    unfold required_step in Hx;
    destruct (cmd_args st !! param_name x) eqn:Hv; simplify_eq.
  - rewrite decide_False by done. apply IH.
  - by rewrite decide_True.
Qed.

(** ** Generated options *)

Section Properties.

Variable typecast_factory : parameter → option typecast.
Variable py_str : pyval → string.

Abbreviation options_of := (generate_arg_options typecast_factory py_str).
Abbreviation parsed_with := (super_parse_args typecast_factory py_str).
Abbreviation parse_with := (parse_command_line typecast_factory py_str).
Abbreviation defaults_of := (namespace_defaults typecast_factory py_str).
Abbreviation flags_of := (presence_flags typecast_factory py_str).
Abbreviation dest_of param := (option_dest (option_string param)).

Lemma generate_action param :
  opt_action (options_of param) =
  if boolean_like param
  then Some (if decide (param_kind param = POSITIONAL_ONLY)
             then store_true else BooleanOptionalAction)
  else None.
Proof.
  unfold generate_arg_options.
  destruct (boolean_like param), (typecast_factory param);
    repeat (case_decide; simpl in * ); congruence.
Qed.

Lemma generate_type param :
  opt_type (options_of param) =
  if boolean_like param then None else typecast_factory param.
Proof.
  unfold generate_arg_options.
  destruct (boolean_like param), (typecast_factory param);
    repeat (case_decide; simpl in * ); congruence.
Qed.

Lemma generate_default param :
  opt_default (options_of param) =
  if tri_state_toggle param then None else Some SUPPRESS.
Proof.
  unfold generate_arg_options, tri_state_toggle.
  destruct (boolean_like param), (typecast_factory param); simpl;
    repeat (case_bool_decide || case_decide; simpl in * ); congruence.
Qed.

Lemma default_entry_generate param :
  default_entry (options_of param) =
  if tri_state_toggle param then Some PyNone else None.
Proof.
  unfold default_entry. rewrite generate_default.
  by destruct (tri_state_toggle param).
Qed.

(** Every argument [generate_args] declares is the catch-all or the
    argument of one parameter of the three kinds, under the parameter's name
    when positional-only and under its option string otherwise, with the
    options [generate_arg_options] gives that parameter. *)
Lemma generated_arguments sig a :
  a ∈ mjoin (group_arguments
               <$> generate_args typecast_factory py_str (__init__ sig)) →
  a = catch_all_argument
  ∨ ∃ param,
      param ∈ sig
      ∧ arg_options a = options_of param
      ∧ (param_kind param = POSITIONAL_ONLY ∧ arg_name a = param_name param
         ∨ (param_kind param = POSITIONAL_OR_KEYWORD
            ∨ param_kind param = KEYWORD_ONLY)
           ∧ arg_name a = option_string param).
Proof.
  assert (∀ k (f : parameter → argument),
            a ∈ f <$> __init__ sig (KIND k) →
            ∃ param, param ∈ sig ∧ param_kind param = k ∧ a = f param) as Hbucket.
  { intros k f Hin. apply list_elem_of_fmap in Hin.
    destruct Hin as (param & Heq & Hparam).
    rewrite init_kind in Hparam.
    apply list_elem_of_filter in Hparam as [Hkind Hsig]. eauto. }
  assert (∀ (l : list parameter) g,
            a ∈ mjoin (group_arguments <$> (if l is [] then [] else [g])) →
            a ∈ group_arguments g) as Hgroup.
  { intros [|x l] g; simpl; [by intros ?%elem_of_nil|by rewrite app_nil_r]. }
  unfold generate_args.
  rewrite !fmap_app, !join_app, !elem_of_app.
  intros [Hin%Hgroup|[Hin%Hgroup|Hin%Hgroup]]; simpl in Hin.
  - apply Hbucket in Hin as (param & Hparam & Hkind & ->). right.
    exists param. simpl. naive_solver.
  - apply elem_of_cons in Hin as [->|Hin]; [by left|].
    apply Hbucket in Hin as (param & Hparam & Hkind & ->). right.
    exists param. simpl. naive_solver.
  - apply Hbucket in Hin as (param & Hparam & Hkind & ->). right.
    exists param. simpl. naive_solver.
Qed.

(** The parse-time default of every declared argument: the unset sentinel,
    or none at all for a tri-state toggle, or the empty list of the
    catch-all. *)
Lemma generated_defaults sig a :
  a ∈ mjoin (group_arguments
               <$> generate_args typecast_factory py_str (__init__ sig)) →
  opt_default (arg_options a) = Some SUPPRESS
  ∨ opt_default (arg_options a) = None
    ∧ opt_action (arg_options a) = Some BooleanOptionalAction
  ∨ a = catch_all_argument.
Proof.
  intros [->|(param & _ & -> & _)]%generated_arguments; [by right; right|].
  rewrite generate_default, generate_action. unfold tri_state_toggle.
  destruct (boolean_like param); simpl; [|by left].
  case_bool_decide; case_decide; try done; [right; left|left]; done.
Qed.

Lemma filter_all {A} (P : A → Prop) `{!∀ x, Decision (P x)} (l : list A) :
  Forall P l → filter P l = l.
Proof.
  induction 1 as [|x l Hx Hl IH]; [done|].
  by rewrite filter_cons_True, IH.
Qed.

Lemma filter_none {A} (P : A → Prop) `{!∀ x, Decision (P x)} (l : list A) :
  Forall (λ x, ¬ P x) l → filter P l = [].
Proof.
  induction 1 as [|x l Hx Hl IH]; [done|].
  by rewrite filter_cons_False, IH.
Qed.

(** ** The parsed namespace *)

Lemma init_default_lookup dest param namespace d :
  init_default dest (options_of param) namespace !! d =
  match namespace !! d with
  | Some v => Some v
  | None =>
      if decide (dest = d ∧ tri_state_toggle param = true)
      then Some PyNone else None
  end.
Proof.
  unfold init_default. rewrite default_entry_generate.
  destruct (decide (dest = d)) as [<-|Hne].
  - destruct (namespace !! dest) eqn:Hname; [by rewrite Hname|].
    destruct (tri_state_toggle param).
    + rewrite lookup_insert_eq. by rewrite decide_True.
    + rewrite Hname. rewrite decide_False; [done|]. by intros [_ ?].
  - destruct (namespace !! dest), (tri_state_toggle param);
      simpl; rewrite ?lookup_insert_ne by done;
      destruct (namespace !! d); try done; rewrite decide_False; tauto.
Qed.

Lemma foldl_init_lookup (f : parameter → string) l : ∀ namespace d,
  foldl (λ namespace param,
           init_default (f param) (options_of param) namespace) namespace l
  !! d =
  match namespace !! d with
  | Some v => Some v
  | None =>
      if decide (Exists (λ param, f param = d
                                  ∧ tri_state_toggle param = true) l)
      then Some PyNone else None
  end.
Proof.
  induction l as [|param l IH]; intros namespace d; simpl.
  - by destruct (namespace !! d).
  - rewrite IH, init_default_lookup.
    destruct (namespace !! d); [done|].
    destruct (decide (f param = d ∧ tri_state_toggle param = true)).
    + rewrite decide_True; [done|]. by left.
    + destruct (decide (Exists _ l)) as [Hl|Hl].
      * rewrite decide_True; [done|]. by right.
      * rewrite decide_False; [done|]. intros ?%Exists_cons. tauto.
Qed.

Lemma positional_only_not_toggle sig :
  Forall (λ param, tri_state_toggle param = false)
    (__init__ sig (KIND POSITIONAL_ONLY)).
Proof.
  clear typecast_factory py_str.
  apply Forall_forall. intros param Hparam.
  rewrite init_kind, list_elem_of_filter in Hparam. destruct Hparam as [Hkind _].
  unfold tri_state_toggle. rewrite bool_decide_eq_false_2 by tauto.
  apply andb_false_r.
Qed.

(** The defaults of a classified signature: the empty list under the
    catch-all when there is a positional-or-keyword parameter, [None] under
    the destination of every tri-state toggle, and nothing else. *)
Lemma defaults_lookup sig d :
  defaults_of (__init__ sig) !! d =
  if decide (d = _positional_or_kw
             ∧ __init__ sig (KIND POSITIONAL_OR_KEYWORD) ≠ [])
  then Some (PyList [])
  else if decide (Exists (λ param, dest_of param = d
                                   ∧ tri_state_toggle param = true)
                    (__init__ sig (KIND POSITIONAL_OR_KEYWORD)
                     ++ __init__ sig (KIND KEYWORD_ONLY)))
       then Some PyNone else None.
Proof.
  unfold namespace_defaults.
  change (init_positional_default typecast_factory py_str)
    with (λ namespace param,
            init_default (param_name param) (options_of param) namespace).
  change (init_param_default typecast_factory py_str)
    with (λ namespace param,
            init_default (dest_of param) (options_of param) namespace).
  set (po := foldl _ ∅ (__init__ sig (KIND POSITIONAL_ONLY))).
  assert (∀ k, po !! k = None) as Hpo.
  { intros k. unfold po. rewrite foldl_init_lookup, lookup_empty.
    rewrite decide_False; [done|].
    intros (param & Hparam & _ & Htoggle)%Exists_exists.
    pose proof (positional_only_not_toggle sig) as Hno.
    rewrite Forall_forall in Hno. rewrite (Hno param Hparam) in Htoggle.
    done. }
  rewrite foldl_init_lookup.
  destruct (__init__ sig (KIND POSITIONAL_OR_KEYWORD)) as [|x l] eqn:Hl.
  - rewrite Hpo. rewrite (decide_False (P := _ ∧ _)) by (by intros [_ []]). done.
  - rewrite <- Hl. rewrite foldl_init_lookup.
    unfold init_default at 1. rewrite Hpo. simpl.
    destruct (decide (d = _positional_or_kw)) as [->|Hd].
    + rewrite lookup_insert_eq. rewrite decide_True; [done|].
      split; [done|]. by rewrite Hl.
    + rewrite lookup_insert_ne by done. rewrite Hpo.
      rewrite (decide_False (P := _ ∧ _)) by (by intros [? _]).
      destruct (decide (Exists _ (__init__ sig (KIND POSITIONAL_OR_KEYWORD))))
        as [Hpok|Hpok].
      * rewrite decide_True; [done|]. apply Exists_app. by left.
      * destruct (decide (Exists _ (__init__ sig (KIND KEYWORD_ONLY))))
          as [Hkw|Hkw].
        -- rewrite decide_True; [done|]. apply Exists_app. by right.
        -- rewrite decide_False; [done|]. intros ?%Exists_app. tauto.
Qed.

Lemma toggle_in_options sig param :
  param ∈ sig →
  param_kind param = POSITIONAL_OR_KEYWORD ∨ param_kind param = KEYWORD_ONLY →
  boolean_like param = true →
  Exists (λ q, dest_of q = dest_of param ∧ tri_state_toggle q = true)
    (__init__ sig (KIND POSITIONAL_OR_KEYWORD)
     ++ __init__ sig (KIND KEYWORD_ONLY)).
Proof.
  clear typecast_factory py_str.
  intros Hin Hkind Hbool. apply Exists_exists. exists param. split_and!.
  - rewrite elem_of_app, !init_kind, !list_elem_of_filter. tauto.
  - done.
  - unfold tri_state_toggle. rewrite Hbool. simpl.
    apply bool_decide_eq_true. destruct Hkind; congruence.
Qed.

Lemma defaults_toggle sig param :
  param ∈ sig →
  param_kind param = POSITIONAL_OR_KEYWORD ∨ param_kind param = KEYWORD_ONLY →
  boolean_like param = true →
  dest_of param ≠ _positional_or_kw →
  defaults_of (__init__ sig) !! dest_of param = Some PyNone.
Proof.
  intros Hin Hkind Hbool Hname. rewrite defaults_lookup.
  rewrite decide_False by (by intros [? _]).
  rewrite decide_True; [done|]. by apply toggle_in_options.
Qed.

Lemma defaults_catch_all sig :
  __init__ sig (KIND POSITIONAL_OR_KEYWORD) ≠ [] →
  defaults_of (__init__ sig) !! _positional_or_kw = Some (PyList []).
Proof. intros Hne. rewrite defaults_lookup. by rewrite decide_True. Qed.

Lemma defaults_unset sig d :
  d ≠ _positional_or_kw →
  (∀ param, param ∈ sig → dest_of param = d →
     param_kind param = POSITIONAL_OR_KEYWORD
     ∨ param_kind param = KEYWORD_ONLY →
     boolean_like param = false) →
  defaults_of (__init__ sig) !! d = None.
Proof.
  intros Hd Hsig. rewrite defaults_lookup.
  rewrite decide_False by (by intros [? _]).
  rewrite decide_False; [done|].
  intros (q & Hq & Hdest & Htoggle)%Exists_exists.
  rewrite elem_of_app, !init_kind, !list_elem_of_filter in Hq.
  unfold tri_state_toggle in Htoggle.
  rewrite (Hsig q) in Htoggle; [done|tauto|done|tauto].
Qed.

(** The presence-only positionals: [True] under the name of each, and
    nothing else. *)
Lemma flags_lookup_Some meta d v :
  flags_of meta !! d = Some v →
  v = PyBool true
  ∧ ∃ param, param ∈ meta (KIND POSITIONAL_ONLY)
             ∧ param_name param = d
             ∧ opt_action (options_of param) = Some store_true.
Proof.
  unfold presence_flags. intros Hin%elem_of_list_to_map_2.
  apply list_elem_of_fmap in Hin as (param & [= -> ->] & Hparam).
  apply list_elem_of_filter in Hparam as [Haction Hparam]. eauto.
Qed.

Lemma flags_lookup_None meta d :
  (∀ param, param ∈ meta (KIND POSITIONAL_ONLY) → param_name param = d →
            opt_action (options_of param) ≠ Some store_true) →
  flags_of meta !! d = None.
Proof.
  intros Hno. apply eq_None_not_Some. intros [v Hv].
  apply flags_lookup_Some in Hv as (_ & param & Hparam & Hname & Haction).
  by apply (Hno param).
Qed.

Lemma flags_lookup_true meta param :
  param ∈ meta (KIND POSITIONAL_ONLY) →
  opt_action (options_of param) = Some store_true →
  flags_of meta !! param_name param = Some (PyBool true).
Proof.
  intros Hparam Haction.
  destruct (flags_of meta !! param_name param) as [v|] eqn:Hv.
  - apply flags_lookup_Some in Hv as [-> _]. done.
  - exfalso. unfold presence_flags in Hv.
    apply not_elem_of_list_to_map_2 in Hv. apply Hv.
    rewrite <- list_fmap_compose.
    apply (list_elem_of_fmap_2' _ _ param); [|done].
    by apply list_elem_of_filter.
Qed.

(** No positional is unmatched exactly when every positional that takes a
    token has one. *)
Lemma unmatched_positionals_nil params stored :
  unmatched_positionals typecast_factory py_str params stored = [] ↔
  Forall (λ param, opt_action (options_of param) = None →
                   is_Some (stored !! param_name param)) params.
Proof.
  induction params as [|param params IH]; [done|].
  cbn [unmatched_positionals]. rewrite Forall_cons. case_decide as Hcase.
  - split; [done|]. intros [Hparam _]. destruct Hcase as [Haction Hnone].
    destruct (Hparam Haction). congruence.
  - rewrite IH. split; [|by intros [_ ?]]. intros Hrest. split; [|done].
    intros Haction. destruct (stored !! param_name param) eqn:Hstored;
      [done|]. destruct Hcase. by split.
Qed.

(** The parse step returns exactly when no positional is left without its
    token; the namespace then holds the presence-only flags, what was
    stored, and the defaults, in that order of precedence. *)
Lemma super_parse_args_Return meta stored parsed :
  parsed_with meta stored = Return parsed ↔
  missing_positionals typecast_factory py_str meta stored = []
  ∧ parsed = flags_of meta ∪ stored ∪ defaults_of meta.
Proof.
  unfold super_parse_args.
  destruct (missing_positionals _ _ meta stored); split.
  - by intros [= <-].
  - by intros [_ ->].
  - done.
  - by intros [? _].
Qed.

Lemma parsed_lookup meta stored parsed d :
  parsed_with meta stored = Return parsed →
  parsed !! d =
  match flags_of meta !! d with
  | Some v => Some v
  | None =>
      match stored !! d with
      | Some v => Some v
      | None => defaults_of meta !! d
      end
  end.
Proof.
  intros [_ ->]%super_parse_args_Return. rewrite !lookup_union.
  by destruct (flags_of meta !! d), (stored !! d), (defaults_of meta !! d).
Qed.

(** The destinations of a classified signature. *)
Lemma destinations_elem sig d :
  d ∈ destinations (__init__ sig) ↔
  (∃ param, param ∈ __init__ sig (KIND POSITIONAL_ONLY) ∧ param_name param = d)
  ∨ (d = _positional_or_kw ∧ __init__ sig (KIND POSITIONAL_OR_KEYWORD) ≠ [])
  ∨ (∃ param, param ∈ __init__ sig (KIND POSITIONAL_OR_KEYWORD)
                      ++ __init__ sig (KIND KEYWORD_ONLY)
              ∧ dest_of param = d).
Proof.
  clear typecast_factory py_str.
  unfold destinations. rewrite !elem_of_app, !list_elem_of_fmap.
  assert (∀ l : list parameter,
            (∃ param, param ∈ l ∧ param_name param = d)
            ↔ ∃ param, d = param_name param ∧ param ∈ l) as Hname.
  { intros l. split; intros (param & ? & ?); exists param; by split. }
  assert (∀ l : list parameter,
            (∃ param, param ∈ l ∧ dest_of param = d)
            ↔ ∃ param, d = dest_of param ∧ param ∈ l) as Hdest.
  { intros l. split; intros (param & ? & ?); exists param; by split. }
  rewrite <- Hname, <- Hdest.
  assert ((∃ param, param ∈ __init__ sig (KIND POSITIONAL_OR_KEYWORD)
                            ++ __init__ sig (KIND KEYWORD_ONLY)
                    ∧ dest_of param = d)
          ↔ (∃ param, param ∈ __init__ sig (KIND POSITIONAL_OR_KEYWORD)
                      ∧ dest_of param = d)
            ∨ ∃ param, param ∈ __init__ sig (KIND KEYWORD_ONLY)
                       ∧ dest_of param = d) as ->.
  { split.
    - intros (param & [Hp|Hp]%elem_of_app & Hd); [left|right]; eauto.
    - intros [(param & Hp & Hd)|(param & Hp & Hd)]; exists param;
        rewrite elem_of_app; auto. }
  destruct (__init__ sig (KIND POSITIONAL_OR_KEYWORD)) as [|x l] eqn:Hl.
  - rewrite elem_of_nil. split.
    + intros [?|[[]|?]]; auto.
    + intros [?|[[_ []]|[(param & []%elem_of_nil & _)|?]]]; auto.
  - rewrite elem_of_cons, list_elem_of_fmap, <- Hdest. split.
    + intros [?|[[->|?]|?]]; auto.
    + intros [?|[[-> _]|[?|?]]]; auto.
Qed.

(** A name that is no declared destination has an entry in the namespace
    only if an action stored one. *)
Lemma undeclared_entry sig stored parsed d :
  d ∉ destinations (__init__ sig) →
  parsed_with (__init__ sig) stored = Return parsed →
  parsed !! d = stored !! d.
Proof.
  intros Hd Hparsed. rewrite (parsed_lookup _ _ _ _ Hparsed).
  rewrite destinations_elem in Hd.
  rewrite flags_lookup_None.
  2:{ intros param Hparam Hname _. apply Hd. left. eauto. }
  destruct (stored !! d); [done|].
  rewrite defaults_lookup.
  rewrite decide_False by (intros ?; apply Hd; by (right; left)).
  rewrite decide_False; [done|].
  intros (param & Hparam & Hdest & _)%Exists_exists.
  apply Hd. right; right. eauto.
Qed.

(** ** Required parameters *)

Lemma parse_args_required meta parsed st :
  bind_arguments meta parsed = Return st →
  parse_args meta parsed =
  match still_unbound meta st with
  | [] => Return (args st, kwargs st)
  | param :: _ => Raise (parser_error (required_message (param_name param)))
  end.
Proof.
  intros Hst. unfold parse_args, still_unbound. rewrite Hst. simpl.
  rewrite required_pass.
  by destruct (filter _ (meta REQUIRED)).
Qed.

(** The parse step returns when every positional that takes a token has
    one. *)
Lemma super_parse_args_total meta stored :
  Forall (λ param, opt_action (options_of param) = None →
                   is_Some (stored !! param_name param))
    (meta (KIND POSITIONAL_ONLY)) →
  parsed_with meta stored
  = Return (flags_of meta ∪ stored ∪ defaults_of meta).
Proof.
  intros Hall. apply super_parse_args_Return. split; [|done].
  by apply unmatched_positionals_nil.
Qed.



Lemma bind_arguments_inv meta parsed st :
  bind_arguments meta parsed = Return st →
  ∃ st1 st2,
    for_each positional_only_step (meta (KIND POSITIONAL_ONLY))
      {| cmd_args := parsed; args := []; kwargs := ∅ |} = Return st1
    ∧ for_each positional_or_keyword_step (meta (KIND POSITIONAL_OR_KEYWORD)) st1
      = Return st2
    ∧ for_each keyword_only_step (meta (KIND KEYWORD_ONLY)) st2 = Return st.
Proof.
  unfold bind_arguments.
  destruct (for_each positional_only_step _ _) as [st1|]; simpl; [|done].
  destruct (for_each positional_or_keyword_step _ _) as [st2|] eqn:H2; simpl;
    [|done].
  intros H3. eauto.
Qed.

Lemma parse_args_inv meta parsed positional keywords :
  parse_args meta parsed = Return (positional, keywords) →
  ∃ st, bind_arguments meta parsed = Return st
        ∧ still_unbound meta st = []
        ∧ positional = args st ∧ keywords = kwargs st.
Proof.
  destruct (bind_arguments meta parsed) as [st|e] eqn:Hst.
  - rewrite (parse_args_required _ _ st Hst).
    destruct (still_unbound meta st) eqn:Hunbound; [|done].
    intros [= <- <-]. eauto.
  - unfold parse_args. rewrite Hst. done.
Qed.


(** ** The catch-all list *)

Lemma keyword_pass_other body l st st' k :
  body = positional_or_keyword_step ∨ body = keyword_only_step →
  for_each body l st = Return st' →
  k ∉ param_name <$> l →
  kwargs st' !! k = kwargs st !! k.
Proof.
  intros Hbody Hpass Hk. revert Hpass.
  apply (for_each_invariant body (λ t, kwargs t !! k = kwargs st !! k)); [|done].
  intros x t t' Hx Ht Hstep. rewrite <- Ht.
  assert (param_name x ≠ k) as Hne.
  { intros <-. apply Hk. by apply list_elem_of_fmap_2. }
  destruct Hbody as [-> | ->]; step_cases; simpl; try done;
    by rewrite lookup_insert_ne.
Qed.

Lemma unset_parameters_same st st' l :
  (∀ param, param ∈ l →
     cmd_args st' !! param_name param = None
     ↔ cmd_args st !! param_name param = None) →
  unset_parameters st' l = unset_parameters st l.
Proof.
  clear typecast_factory py_str.
  unfold unset_parameters. induction l as [|x l IH]; intros Hsame; [done|].
  rewrite !filter_cons, IH by (intros; apply Hsame; by right).
  assert (cmd_args st' !! param_name x = None
          ↔ cmd_args st !! param_name x = None) by (apply Hsame; by left).
  repeat case_decide; tauto.
Qed.

(** The second loop over parameters of distinct names: the unset ones take
    the tokens of the catch-all list from the front, one each and in
    declaration order; once the list is empty the remaining ones are left as
    they were; and the loop does not raise. *)
Lemma positional_or_keyword_pass_claims params : ∀ tokens st,
  NoDup (param_name <$> params) →
  cmd_args st !! _positional_or_kw = Some (PyList tokens) →
  ∃ st',
    for_each positional_or_keyword_step params st = Return st'
    ∧ cmd_args st' !! _positional_or_kw =
      Some (PyList (drop (length (unset_parameters st params)) tokens))
    ∧ (∀ i param token,
         unset_parameters st params !! i = Some param →
         tokens !! i = Some token →
         kwargs st' !! param_name param = Some token)
    ∧ (∀ i param,
         unset_parameters st params !! i = Some param →
         tokens !! i = None →
         kwargs st' !! param_name param = kwargs st !! param_name param).
Proof.
  clear typecast_factory py_str.
  induction params as [|x l IH]; intros tokens st Hnodup Htokens.
  { exists st. split_and!; try done. }
  rewrite fmap_cons in Hnodup. apply NoDup_cons in Hnodup as [Hx Hnodup].
  assert (∀ param, param ∈ l → param_name param ≠ param_name x) as Hother.
  { intros param Hparam Heq. apply Hx. rewrite <- Heq.
    by apply list_elem_of_fmap_2. }
  assert (∀ st i param, unset_parameters st l !! i = Some param → param ∈ l)
    as Hmember.
  { intros t i param Hi. apply list_elem_of_lookup_2 in Hi.
    unfold unset_parameters in Hi. apply list_elem_of_filter in Hi. tauto. }
  simpl. unfold unset_parameters at 1 2 3. rewrite filter_cons.
  fold (unset_parameters st l).
  destruct (cmd_args st !! param_name x) as [v|] eqn:Hv.
  - (* the named flag is set *)
    rewrite decide_False by done.
    assert (positional_or_keyword_step st x =
            Return {| cmd_args := cmd_args st; args := args st;
                      kwargs := <[param_name x := v]> (kwargs st) |}) as ->.
    { unfold positional_or_keyword_step. by rewrite Hv. }
    simpl.
    destruct (IH tokens {| cmd_args := cmd_args st; args := args st;
                           kwargs := <[param_name x := v]> (kwargs st) |})
      as (st' & Hpass & Hleft & Hbound & Hkept); [done..|].
    exists st'. split_and!; try done.
    intros i param Hi Hnone. rewrite (Hkept i param Hi Hnone). simpl.
    rewrite lookup_insert_ne; [done|]. symmetry. eauto.
  - rewrite decide_True by done.
    assert (param_name x ≠ _positional_or_kw) as Hreserved by congruence.
    destruct tokens as [|token rest].
    + (* the list is exhausted *)
      assert (positional_or_keyword_step st x = Return st) as ->.
      { unfold positional_or_keyword_step. by rewrite Hv, Htokens. }
      simpl.
      destruct (IH [] st) as (st' & Hpass & Hleft & Hbound & Hkept); [done..|].
      exists st'. split_and!; try done.
      * by rewrite drop_nil in *.
      * intros [|i] param Hi _; simpl in *.
        -- injection Hi as <-.
           by eapply keyword_pass_other; [left|..].
        -- by apply (Hkept i).
    + (* the first token is claimed *)
      set (st1 := {| cmd_args :=
                       <[param_name x := token]>
                         (<[_positional_or_kw := PyList rest]> (cmd_args st));
                     args := args st;
                     kwargs := <[param_name x := token]> (kwargs st) |}).
      assert (positional_or_keyword_step st x = Return st1) as ->.
      { unfold positional_or_keyword_step. by rewrite Hv, Htokens. }
      simpl.
      assert (unset_parameters st1 l = unset_parameters st l) as Hsame.
      { apply unset_parameters_same. intros param Hparam. simpl.
        rewrite lookup_insert_ne by (symmetry; eauto).
        destruct (decide (param_name param = _positional_or_kw)) as [->|].
        - rewrite lookup_insert_eq, Htokens. done.
        - by rewrite lookup_insert_ne. }
      destruct (IH rest st1) as (st' & Hpass & Hleft & Hbound & Hkept); [done|..].
      { simpl. rewrite lookup_insert_ne by done. by rewrite lookup_insert_eq. }
      rewrite Hsame in *.
      exists st'. split_and!; try done.
      * intros [|i] param tok Hi Htok; simpl in *.
        -- injection Hi as <-. injection Htok as <-.
           rewrite (keyword_pass_other _ _ _ _ (param_name x) (or_introl eq_refl) Hpass Hx).
           simpl. by rewrite lookup_insert_eq.
        -- by apply (Hbound i).
      * intros [|i] param Hi Hnone; simpl in *; [done|].
        rewrite (Hkept i param Hi Hnone). simpl.
        rewrite lookup_insert_ne; [done|]. symmetry. eauto.
Qed.

Lemma parameter_of_name sig param1 param2 :
  NoDup (param_name <$> sig) →
  param1 ∈ sig → param2 ∈ sig →
  param_name param1 = param_name param2 → param1 = param2.
Proof.
  clear typecast_factory py_str.
  induction sig as [|x l IH]; [by intros _ ?%elem_of_nil|].
  rewrite fmap_cons. intros [Hx Hl]%NoDup_cons.
  intros [->|H1]%elem_of_cons [->|H2]%elem_of_cons Hname; auto.
  - exfalso. apply Hx. rewrite Hname. by apply list_elem_of_fmap_2.
  - exfalso. apply Hx. rewrite <- Hname. by apply list_elem_of_fmap_2.
Qed.

(** The destination of an option string never begins with an underscore:
    the underscores at the head of a name become dashes, and are stripped
    with the two dashes of the option string. *)
Lemma lstrip_replace_head s c rest :
  lstrip "-"%char (replace "_"%char "-"%char s) = String c rest →
  c ≠ "-"%char ∧ c ≠ "_"%char.
Proof.
  clear typecast_factory py_str.
  induction s as [|c' s IH]; simpl; [done|].
  destruct (decide (c' = "_"%char)) as [->|Hc'].
  - rewrite decide_True by done. apply IH.
  - destruct (decide (c' = "-"%char)) as [->|Hdash]; [apply IH|].
    intros [= <- _]. done.
Qed.

Lemma option_dest_head param c rest :
  dest_of param = String c rest → c ≠ "_"%char.
Proof.
  clear typecast_factory py_str.
  unfold option_dest, option_string. cbv [String.append]. simpl.
  destruct (lstrip "-"%char (replace "_"%char "-"%char (param_name param)))
    as [|c' rest'] eqn:Hstrip; simpl; [done|].
  apply lstrip_replace_head in Hstrip as [Hdash Hunder].
  rewrite decide_False by done. by intros [= <- _].
Qed.

Lemma option_dest_not_catch_all param : dest_of param ≠ _positional_or_kw.
Proof.
  clear typecast_factory py_str.
  intros Heq. by apply option_dest_head in Heq.
Qed.

(** An entry no argument gives a default or a presence flag to is there
    only if an action stored it. *)
Lemma parsed_unset sig stored parsed d :
  d ≠ _positional_or_kw →
  (∀ param, param ∈ sig → param_name param = d ∨ dest_of param = d →
            boolean_like param = false) →
  parsed_with (__init__ sig) stored = Return parsed →
  parsed !! d = stored !! d.
Proof.
  intros Hd Hsig Hparsed. rewrite (parsed_lookup _ _ _ _ Hparsed).
  rewrite flags_lookup_None.
  2:{ intros param Hparam Hname. rewrite init_kind in Hparam.
      apply list_elem_of_filter in Hparam as [_ Hparam].
      rewrite generate_action, (Hsig param) by auto. done. }
  destruct (stored !! d); [done|].
  apply defaults_unset; [done|]. intros param Hparam Hdest _. auto.
Qed.

Lemma parsed_catch_all sig stored parsed :
  __init__ sig (KIND POSITIONAL_OR_KEYWORD) ≠ [] →
  _positional_or_kw ∉ param_name <$> __init__ sig (KIND POSITIONAL_ONLY) →
  parsed_with (__init__ sig) stored = Return parsed →
  parsed !! _positional_or_kw =
  Some (default (PyList []) (stored !! _positional_or_kw)).
Proof.
  intros Hne Hreserved Hparsed. rewrite (parsed_lookup _ _ _ _ Hparsed).
  rewrite flags_lookup_None.
  2:{ intros param Hparam Hname _. apply Hreserved. rewrite <- Hname.
      by apply list_elem_of_fmap_2. }
  rewrite defaults_catch_all by done.
  by destruct (stored !! _positional_or_kw).
Qed.

(** C4.  In the second loop, over parameters of distinct names, each
    parameter whose named flag is unset takes one token from the front of
    the shared catch-all list, in declaration order; when the list is
    exhausted the parameter is left unbound and the loop goes on without
    raising.  For [def h(x=0, y=0)] with neither flag given and the leftover
    tokens 5 and 6, resolution binds [x] to the string 5 and [y] to the
    string 6. *)
Theorem catch_all_claimed_in_order :
  (∀ params tokens st,
     NoDup (param_name <$> params) →
     cmd_args st !! _positional_or_kw = Some (PyList tokens) →
     ∃ st',
       for_each positional_or_keyword_step params st = Return st'
       ∧ cmd_args st' !! _positional_or_kw =
         Some (PyList (drop (length (unset_parameters st params)) tokens))
       ∧ (∀ i param token,
            unset_parameters st params !! i = Some param →
            tokens !! i = Some token →
            kwargs st' !! param_name param = Some token)
       ∧ (∀ i param,
            unset_parameters st params !! i = Some param →
            tokens !! i = None →
            kwargs st' !! param_name param = kwargs st !! param_name param))
  ∧ parse_with (__init__ sig_xy)
      {[_positional_or_kw := PyList [PyStr "5"; PyStr "6"]]}
    = Return ([], {["x" := PyStr "5"; "y" := PyStr "6"]}).
Proof.
  split; [intros; by apply positional_or_keyword_pass_claims|].
  set (stored := {[_positional_or_kw := PyList [PyStr "5"; PyStr "6"]]}
         : gmap string pyval).
  assert (parsed_with (__init__ sig_xy) stored
          = Return (flags_of (__init__ sig_xy) ∪ stored
                    ∪ defaults_of (__init__ sig_xy))) as Hparsed.
  { apply super_parse_args_total. constructor. }
  unfold parse_command_line. rewrite Hparsed. simpl.
  set (parsed := flags_of (__init__ sig_xy) ∪ stored
                 ∪ defaults_of (__init__ sig_xy)) in *.
  assert (∀ d, d ≠ _positional_or_kw → parsed !! d = None) as Hunset.
  { intros d Hd. rewrite (parsed_unset sig_xy stored parsed d); try done.
    - by apply lookup_singleton_ne.
    - intros param Hparam _. unfold sig_xy in Hparam.
      repeat (apply elem_of_cons in Hparam as [->|Hparam]; [done|]).
      by apply elem_of_nil in Hparam. }
  assert (parsed !! _positional_or_kw = Some (PyList [PyStr "5"; PyStr "6"]))
    as Htokens.
  { rewrite (parsed_catch_all sig_xy stored parsed); try done.
    by intros ?%elem_of_nil. }
  clearbody parsed.
  unfold parse_args, bind_arguments.
  change (__init__ sig_xy (KIND POSITIONAL_ONLY)) with (@nil parameter).
  change (__init__ sig_xy (KIND POSITIONAL_OR_KEYWORD)) with sig_xy.
  change (__init__ sig_xy (KIND KEYWORD_ONLY)) with (@nil parameter).
  change (__init__ sig_xy REQUIRED) with (@nil parameter).
  unfold sig_xy, for_each, positional_or_keyword_step; simpl.
  repeat (first [rewrite Hunset by done | rewrite Htokens
                | rewrite lookup_insert_eq
                | rewrite lookup_insert_ne by done]; simpl).
  f_equal.
Qed.

(** C9.  A token that a non-boolean positional-or-keyword parameter takes
    from the catch-all list is bound as it stands.  The catch-all argument is
    declared without a [type], so its tokens are stored as raw strings; the
    parameter's own option carries the coercion of [typecast_factory], which
    serves the named flag only: the second loop binds the raw string under
    the parameter's name whatever that coercion is. *)
Theorem catch_all_token_bound_raw param st token rest :
  param_kind param = POSITIONAL_OR_KEYWORD →
  boolean_like param = false →
  cmd_args st !! param_name param = None →
  cmd_args st !! _positional_or_kw = Some (PyList (PyStr token :: rest)) →
  convert (arg_options catch_all_argument) token = Some (PyStr token)
  ∧ opt_type (options_of param) = typecast_factory param
  ∧ positional_or_keyword_step st param =
    Return {| cmd_args :=
                <[param_name param := PyStr token]>
                  (<[_positional_or_kw := PyList rest]> (cmd_args st));
              args := args st;
              kwargs := <[param_name param := PyStr token]> (kwargs st) |}
  ∧ ∀ st', positional_or_keyword_step st param = Return st' →
           kwargs st' !! param_name param = Some (PyStr token).
Proof.
  intros Hkind Hbool Hunset Htokens.
  assert (positional_or_keyword_step st param =
    Return {| cmd_args :=
                <[param_name param := PyStr token]>
                  (<[_positional_or_kw := PyList rest]> (cmd_args st));
              args := args st;
              kwargs := <[param_name param := PyStr token]> (kwargs st) |})
    as Hstep.
  { unfold positional_or_keyword_step. by rewrite Hunset, Htokens. }
  split_and!; try done.
  - by rewrite generate_type, Hbool.
  - intros st'. rewrite Hstep. intros [= <-]. simpl. apply lookup_insert_eq.
Qed.

(** ** Boolean-like parameters *)

Lemma NoDup_fmap_eq {A B} (f : A → B) (l : list A) x y :
  NoDup (f <$> l) → x ∈ l → y ∈ l → f x = f y → x = y.
Proof.
  clear typecast_factory py_str.
  induction l as [|z l IH]; [by intros _ ?%elem_of_nil|].
  rewrite fmap_cons. intros [Hz Hl]%NoDup_cons.
  intros [->|Hx]%elem_of_cons [->|Hy]%elem_of_cons Heq; auto.
  - exfalso. apply Hz. rewrite Heq. by apply list_elem_of_fmap_2.
  - exfalso. apply Hz. rewrite <- Heq. by apply list_elem_of_fmap_2.
Qed.

(** When no two declared arguments share a destination, an option's
    destination is the name of no positional, and belongs to that option
    alone. *)
Lemma destinations_options sig :
  NoDup (destinations (__init__ sig)) →
  NoDup ((λ param, dest_of param)
           <$> __init__ sig (KIND POSITIONAL_OR_KEYWORD)
               ++ __init__ sig (KIND KEYWORD_ONLY)).
Proof.
  clear typecast_factory py_str.
  unfold destinations. intros (_ & _ & Hoptions)%NoDup_app.
  rewrite fmap_app.
  destruct (__init__ sig (KIND POSITIONAL_OR_KEYWORD)) as [|x l]; [done|].
  by apply NoDup_cons in Hoptions as [_ Hoptions].
Qed.

Lemma positional_name_not_option_dest sig q param :
  NoDup (destinations (__init__ sig)) →
  q ∈ __init__ sig (KIND POSITIONAL_ONLY) →
  param ∈ __init__ sig (KIND POSITIONAL_OR_KEYWORD)
          ++ __init__ sig (KIND KEYWORD_ONLY) →
  param_name q ≠ dest_of param.
Proof.
  clear typecast_factory py_str.
  unfold destinations. intros (_ & Hdisjoint & _)%NoDup_app Hq Hparam Heq.
  apply (Hdisjoint (param_name q)); [by apply list_elem_of_fmap_2|].
  rewrite Heq. apply elem_of_app in Hparam as [Hparam|Hparam].
  - apply elem_of_app. left.
    destruct (__init__ sig (KIND POSITIONAL_OR_KEYWORD)) as [|x l] eqn:Hl;
      [by apply elem_of_nil in Hparam|].
    rewrite <- Hl in *. right.
    by apply (list_elem_of_fmap_2 (λ param, dest_of param)).
  - apply elem_of_app. right.
    by apply (list_elem_of_fmap_2 (λ param, dest_of param)).
Qed.

Lemma option_bucket sig param :
  param ∈ sig →
  param_kind param = POSITIONAL_OR_KEYWORD ∨ param_kind param = KEYWORD_ONLY →
  param ∈ __init__ sig (KIND POSITIONAL_OR_KEYWORD)
          ++ __init__ sig (KIND KEYWORD_ONLY).
Proof.
  clear typecast_factory py_str.
  intros Hin Hkind. rewrite elem_of_app, !init_kind, !list_elem_of_filter.
  tauto.
Qed.

(** No presence-only flag writes under the destination of an option. *)
Lemma option_dest_no_flag sig param :
  NoDup (destinations (__init__ sig)) →
  param ∈ sig →
  param_kind param = POSITIONAL_OR_KEYWORD ∨ param_kind param = KEYWORD_ONLY →
  flags_of (__init__ sig) !! dest_of param = None.
Proof.
  intros Hnodup Hin Hkind. apply flags_lookup_None.
  intros q Hq Hname _.
  by apply (positional_name_not_option_dest sig q param Hnodup Hq
              (option_bucket sig param Hin Hkind)).
Qed.

(** The destination of a tri-state toggle holds what the toggle stored, or
    [None] when it was given in neither form. *)
Lemma parsed_toggle sig stored parsed param :
  NoDup (destinations (__init__ sig)) →
  param ∈ sig →
  param_kind param = POSITIONAL_OR_KEYWORD ∨ param_kind param = KEYWORD_ONLY →
  boolean_like param = true →
  parsed_with (__init__ sig) stored = Return parsed →
  parsed !! dest_of param = Some (default PyNone (stored !! dest_of param)).
Proof.
  intros Hnodup Hin Hkind Hbool Hparsed.
  rewrite (parsed_lookup _ _ _ _ Hparsed).
  rewrite option_dest_no_flag by done.
  rewrite defaults_toggle by (done || apply option_dest_not_catch_all).
  by destruct (stored !! dest_of param).
Qed.

(** The destination of any other option holds what the option stored, and
    nothing when it stored nothing. *)
Lemma parsed_option sig stored parsed param :
  NoDup (destinations (__init__ sig)) →
  param ∈ sig →
  param_kind param = POSITIONAL_OR_KEYWORD ∨ param_kind param = KEYWORD_ONLY →
  boolean_like param = false →
  parsed_with (__init__ sig) stored = Return parsed →
  parsed !! dest_of param = stored !! dest_of param.
Proof.
  intros Hnodup Hin Hkind Hbool Hparsed.
  rewrite (parsed_lookup _ _ _ _ Hparsed).
  rewrite option_dest_no_flag by done.
  destruct (stored !! dest_of param); [done|].
  apply defaults_unset; [apply option_dest_not_catch_all|].
  intros q Hq Hdest Hqkind.
  assert (q = param) as ->; [|done].
  eapply (NoDup_fmap_eq (λ param, dest_of param)); [|..|done].
  - by apply destinations_options.
  - by apply option_bucket.
  - by apply option_bucket.
Qed.

(** Once the parse step has returned, every positional-only parameter has
    an entry: [True] for a presence-only flag, its token's value
    otherwise. *)
Lemma parsed_positionals sig stored parsed :
  parsed_with (__init__ sig) stored = Return parsed →
  Forall (λ param, is_Some (parsed !! param_name param))
    (__init__ sig (KIND POSITIONAL_ONLY)).
Proof.
  intros Hparsed. apply Forall_forall. intros param Hparam.
  rewrite (parsed_lookup _ _ _ _ Hparsed).
  pose proof Hparam as Hkind. rewrite init_kind in Hkind.
  apply list_elem_of_filter in Hkind as [Hkind _].
  destruct (boolean_like param) eqn:Hbool.
  - rewrite flags_lookup_true; [done..|].
    rewrite generate_action, Hbool. by rewrite decide_True.
  - destruct (flags_of (__init__ sig) !! param_name param); [done|].
    apply super_parse_args_Return in Hparsed as [Hmissing _].
    apply unmatched_positionals_nil in Hmissing.
    rewrite Forall_forall in Hmissing.
    destruct (Hmissing param Hparam) as [v ->]; [|done].
    by rewrite generate_action, Hbool.
Qed.

(** X14.  For a parser that was constructed, no two of whose arguments
    share a destination: when the second loop reaches a boolean-like
    positional-or-keyword parameter whose toggle files under the parameter's
    name, that name is already a key of the namespace; it holds what the
    toggle stored, or [None] when the toggle was given in neither form.  The
    loop binds that value and leaves [cmd_args], the catch-all list
    included, as it was. *)
Theorem boolean_like_claims_no_token sig stored parsed param before after st :
  constructs typecast_factory py_str (__init__ sig) →
  NoDup (destinations (__init__ sig)) →
  __init__ sig (KIND POSITIONAL_OR_KEYWORD) = before ++ param :: after →
  boolean_like param = true →
  dest_of param = param_name param →
  parsed_with (__init__ sig) stored = Return parsed →
  (st1 ← for_each positional_only_step (__init__ sig (KIND POSITIONAL_ONLY))
           {| cmd_args := parsed; args := []; kwargs := ∅ |};
   for_each positional_or_keyword_step before st1) = Return st →
  positional_or_keyword_step st param =
  Return {| cmd_args := cmd_args st;
            args := args st;
            kwargs := <[param_name param :=
                          default PyNone (stored !! param_name param)]>
                        (kwargs st) |}.
Proof.
  intros _ Hnodup Hbucket Hbool Hdest Hparsed Hreach.
  assert (param ∈ sig ∧ param_kind param = POSITIONAL_OR_KEYWORD) as [Hin Hkind].
  { assert (param ∈ __init__ sig (KIND POSITIONAL_OR_KEYWORD)) as Hparam.
    { rewrite Hbucket. apply elem_of_app. right. by left. }
    rewrite init_kind, list_elem_of_filter in Hparam. tauto. }
  destruct (for_each positional_only_step _ _) as [st1|] eqn:H1; [|done].
  simpl in Hreach.
  apply positional_only_pass in H1 as (Hcmd & _). simpl in Hcmd.
  assert (param_name param ≠ _positional_or_kw) as Hname.
  { rewrite <- Hdest. apply option_dest_not_catch_all. }
  assert (cmd_args st !! param_name param =
          Some (default PyNone (stored !! param_name param))) as Hvalue.
  { eapply grows_values; [eapply pass_grows; [|done]|done|].
    - unfold binding_step; tauto.
    - rewrite Hcmd, <- Hdest. apply (parsed_toggle sig); auto. }
  unfold positional_or_keyword_step. by rewrite Hvalue.
Qed.

(** C7 does not hold of the code.  For [def f(_v=False)] the toggle is
    declared as [---v] and files under [v]: [_v] is no key of the namespace,
    whether the toggle was given or not, and the second loop takes the
    leftover token for it. *)
Theorem underscore_toggle_claims_token :
  let _v := plain "_v" POSITIONAL_OR_KEYWORD (Some (PyBool false)) in
  boolean_like _v = true
  ∧ option_string _v = "---v"
  ∧ parsed_with (__init__ sig_uv) {[_positional_or_kw := PyList [PyStr "5"]]}
    = Return {["v" := PyNone; _positional_or_kw := PyList [PyStr "5"]]}
  ∧ parse_with (__init__ sig_uv) {[_positional_or_kw := PyList [PyStr "5"]]}
    = Return ([], {["_v" := PyStr "5"]})
  ∧ parse_with (__init__ sig_uv)
      {["v" := PyBool true; _positional_or_kw := PyList [PyStr "5"]]}
    = Return ([], {["_v" := PyStr "5"]}).
Proof. split_and!; vm_compute; reflexivity. Qed.

Lemma required_message_inj name1 name2 :
  required_message name1 = required_message name2 → name1 = name2.
Proof. unfold required_message. intros H. by simplify_eq/=. Qed.

(** The binding loops raise lookup failures only, never a parser error. *)
Lemma binding_step_raise body st param e :
  binding_step body → body st param = Raise e → ∀ message, e ≠ parser_error message.
Proof. intros Hbody Hstep message. step_cases; done. Qed.

Lemma bind_arguments_raise meta parsed e :
  bind_arguments meta parsed = Raise e → ∀ message, e ≠ parser_error message.
Proof.
  assert (∀ body l st, binding_step body → for_each body l st = Raise e →
                       ∀ message, e ≠ parser_error message) as Hloop.
  { intros body l st Hbody Hraise.
    destruct (for_each_raise body (λ _, True) l st e) as (x & t & _ & _ & Hx);
      try done.
    by eapply binding_step_raise. }
  unfold bind_arguments.
  destruct (for_each positional_only_step _ _) as [st1|] eqn:H1; simpl.
  - destruct (for_each positional_or_keyword_step _ _) as [st2|] eqn:H2; simpl.
    + apply Hloop. unfold binding_step; tauto.
    + intros [= <-]. eapply Hloop; [|done]. unfold binding_step; tauto.
  - intros [= <-]. eapply Hloop; [|done]. unfold binding_step; tauto.
Qed.

(** The binding loops run through when every positional-only parameter has
    an entry and the catch-all, where it is read, holds a list. *)
Lemma bind_arguments_total meta parsed :
  Forall (λ param, is_Some (parsed !! param_name param))
    (meta (KIND POSITIONAL_ONLY)) →
  (meta (KIND POSITIONAL_OR_KEYWORD) = []
   ∨ ∃ tokens, parsed !! _positional_or_kw = Some (PyList tokens)) →
  ∃ st, bind_arguments meta parsed = Return st.
Proof.
  intros Hpo Hpok. unfold bind_arguments.
  destruct (positional_only_pass_total (meta (KIND POSITIONAL_ONLY))
              {| cmd_args := parsed; args := []; kwargs := ∅ |} Hpo)
    as [st1 H1].
  rewrite H1. simpl.
  apply positional_only_pass in H1 as (Hcmd & _). simpl in Hcmd.
  assert (∃ st2, for_each positional_or_keyword_step
                   (meta (KIND POSITIONAL_OR_KEYWORD)) st1 = Return st2)
    as [st2 H2].
  { destruct Hpok as [-> | [tokens Htokens]]; [simpl; eauto|].
    eapply positional_or_keyword_pass_total. by rewrite Hcmd. }
  rewrite H2. simpl. apply keyword_only_pass_total.
Qed.

(** A tri-state toggle given in neither form: its destination holds [None]
    in the namespace, and where that is the parameter's name the binding
    loops bind that [None]. *)
Lemma toggle_unset_bound sig stored parsed param st :
  NoDup (destinations (__init__ sig)) →
  param ∈ sig →
  param_kind param = POSITIONAL_OR_KEYWORD ∨ param_kind param = KEYWORD_ONLY →
  boolean_like param = true →
  dest_of param = param_name param →
  stored !! param_name param = None →
  parsed_with (__init__ sig) stored = Return parsed →
  bind_arguments (__init__ sig) parsed = Return st →
  cmd_args st !! param_name param = Some PyNone
  ∧ kwargs st !! param_name param = Some PyNone.
Proof.
  intros Hnodup Hin Hkind Hbool Hdest Hstored Hreturn Hbind.
  pose proof (parsed_toggle sig stored parsed param Hnodup Hin Hkind Hbool
                Hreturn) as Hparsed.
  rewrite Hdest, Hstored in Hparsed. simpl in Hparsed.
  assert (param_name param ≠ _positional_or_kw) as Hname.
  { rewrite <- Hdest. apply option_dest_not_catch_all. }
  apply bind_arguments_inv in Hbind as (st1 & st2 & H1 & H2 & H3).
  apply positional_only_pass in H1 as (Hcmd & Hkw & _). simpl in *.
  assert (cmd_args st1 !! param_name param = Some PyNone) as Hc1
    by (by rewrite Hcmd).
  assert (kwargs st1 !! param_name param = None) as Hk1
    by (by rewrite Hkw, lookup_empty).
  destruct (keyword_pass_value positional_or_keyword_step
              (param_name param) PyNone
              (__init__ sig (KIND POSITIONAL_OR_KEYWORD)) st1 st2)
    as [Hk2 Hbound2]; auto.
  assert (cmd_args st2 !! param_name param = Some PyNone) as Hc2.
  { eapply grows_values; [eapply pass_grows; [|done]|done..].
    unfold binding_step; tauto. }
  destruct (keyword_pass_value keyword_only_step
              (param_name param) PyNone
              (__init__ sig (KIND KEYWORD_ONLY)) st2 st)
    as [Hk3 Hbound3]; auto.
  split.
  { eapply grows_values; [eapply pass_grows; [|done]|done..].
    unfold binding_step; tauto. }
  destruct Hkind as [Hkind|Hkind].
  - assert (kwargs st2 !! param_name param = Some PyNone) as Hb.
    { apply (Hbound2 param); [|done].
      rewrite init_kind, list_elem_of_filter. done. }
    destruct Hk3 as [Hnone|]; [|done].
    assert (is_Some (kwargs st !! param_name param)) as [? ?]; [|congruence].
    eapply grows_kwargs; [eapply pass_grows; [|done]|by rewrite Hb].
    unfold binding_step; tauto.
  - apply (Hbound3 param); [|done].
    rewrite init_kind, list_elem_of_filter. done.
Qed.

(** X15.  For a parser that was constructed, no two of whose arguments
    share a destination: a boolean-like positional-or-keyword or
    keyword-only parameter whose toggle files under the parameter's name
    and was given in neither form.  The binding loops put [None] under its
    name in the keyword mapping, the mapping [parse_args] returns holds that
    [None], and no failure of [parse_args] is the report that this parameter
    is missing, required or not.  The loops do run through when the
    catch-all holds a list. *)
Theorem toggle_unset_binds_None sig stored parsed param :
  constructs typecast_factory py_str (__init__ sig) →
  NoDup (destinations (__init__ sig)) →
  param ∈ sig →
  param_kind param = POSITIONAL_OR_KEYWORD ∨ param_kind param = KEYWORD_ONLY →
  boolean_like param = true →
  dest_of param = param_name param →
  stored !! param_name param = None →
  parsed_with (__init__ sig) stored = Return parsed →
  let meta := __init__ sig in
  (∀ st, bind_arguments meta parsed = Return st →
         kwargs st !! param_name param = Some PyNone)
  ∧ (∀ positional keywords,
       parse_args meta parsed = Return (positional, keywords) →
       keywords !! param_name param = Some PyNone)
  ∧ (∀ e, parse_args meta parsed = Raise e →
          e ≠ parser_error (required_message (param_name param)))
  ∧ ((∃ tokens, parsed !! _positional_or_kw = Some (PyList tokens)) →
     ∃ st, bind_arguments meta parsed = Return st
           ∧ kwargs st !! param_name param = Some PyNone).
Proof.
  intros _ Hnodup Hin Hkind Hbool Hdest Hstored Hreturn meta.
  assert (∀ st, bind_arguments meta parsed = Return st →
                cmd_args st !! param_name param = Some PyNone
                ∧ kwargs st !! param_name param = Some PyNone) as Hbound.
  { intros st. by eapply toggle_unset_bound. }
  split_and!.
  - intros st Hst. by apply Hbound.
  - intros positional keywords (st & Hst & _ & _ & ->)%parse_args_inv.
    by apply Hbound.
  - intros e Hraise.
    destruct (bind_arguments meta parsed) as [st|e'] eqn:Hst.
    + rewrite (parse_args_required _ _ st Hst) in Hraise.
      destruct (still_unbound meta st) as [|q rest] eqn:Hunbound; [done|].
      injection Hraise as <-.
      intros Heq.
      assert (param_name q = param_name param) as Heq'
        by (apply required_message_inj; congruence).
      clear Heq. rename Heq' into Heq.
      assert (q ∈ still_unbound meta st) as Hq by (rewrite Hunbound; by left).
      unfold still_unbound in Hq. apply list_elem_of_filter in Hq as [Hq _].
      rewrite Heq in Hq. destruct (Hbound st) as [Hc _]; [done|]. congruence.
    + unfold parse_args in Hraise. rewrite Hst in Hraise. simpl in Hraise.
      injection Hraise as <-. by eapply bind_arguments_raise.
  - intros Htokens.
    destruct (bind_arguments_total meta parsed) as [st Hst];
      [by eapply parsed_positionals|by right|].
    exists st. split; [done|]. by apply Hbound.
Qed.

(** C10 does not hold of the code.  For [def lu( *, _flag: bool)] the
    toggle is declared as [---flag] and files its [None] under [flag]:
    [_flag] is no key of the namespace, nothing is bound, and the required
    check reports [_flag] as missing. *)
Theorem underscore_toggle_reported_missing :
  let _flag := annotated "_flag" KEYWORD_ONLY bool_annotation None in
  __init__ sig_uflag REQUIRED = [_flag]
  ∧ option_string _flag = "---flag"
  ∧ parsed_with (__init__ sig_uflag) ∅ = Return {["flag" := PyNone]}
  ∧ parse_with (__init__ sig_uflag) ∅
    = Raise (parser_error (required_message "_flag")).
Proof. split_and!; vm_compute; reflexivity. Qed.

(** C2, as the code has it, for a parser that was constructed, no two of
    whose arguments share a destination.  Every generated option but the
    tri-state toggle has the unset sentinel [SUPPRESS] as its parse-time
    default, and no option has the signature's default; an option left unset
    that way has no entry under its destination.  The tri-state toggle of a
    boolean-like positional-or-keyword or keyword-only parameter is declared
    without a default: given in neither form, it leaves [None] under its
    destination; where that is the parameter's name, the binding loops bind
    that [None], and the parameter is not among the required parameters
    still unbound. *)
Theorem parse_time_defaults :
  (∀ param,
     opt_default (options_of param) =
     if tri_state_toggle param then None else Some SUPPRESS)
  ∧ (∀ param v, opt_default (options_of param) ≠ Some (Given v))
  ∧ (∀ sig stored parsed param,
       constructs typecast_factory py_str (__init__ sig) →
       NoDup (destinations (__init__ sig)) →
       param ∈ sig →
       param_kind param = POSITIONAL_OR_KEYWORD
       ∨ param_kind param = KEYWORD_ONLY →
       boolean_like param = false →
       stored !! dest_of param = None →
       parsed_with (__init__ sig) stored = Return parsed →
       parsed !! dest_of param = None)
  ∧ (∀ sig stored parsed param,
       constructs typecast_factory py_str (__init__ sig) →
       NoDup (destinations (__init__ sig)) →
       param ∈ sig →
       param_kind param = POSITIONAL_OR_KEYWORD
       ∨ param_kind param = KEYWORD_ONLY →
       boolean_like param = true →
       dest_of param = param_name param →
       stored !! param_name param = None →
       parsed_with (__init__ sig) stored = Return parsed →
       parsed !! param_name param = Some PyNone
       ∧ ∀ st,
           bind_arguments (__init__ sig) parsed = Return st →
           kwargs st !! param_name param = Some PyNone
           ∧ param ∉ still_unbound (__init__ sig) st).
Proof.
  split_and!.
  - apply generate_default.
  - intros param v. rewrite generate_default.
    by destruct (tri_state_toggle param).
  - intros sig stored parsed param _ Hnodup Hin Hkind Hbool Hstored Hparsed.
    by rewrite (parsed_option sig stored parsed param).
  - intros sig stored parsed param _ Hnodup Hin Hkind Hbool Hdest Hstored
      Hparsed.
    split.
    + rewrite <- Hdest.
      rewrite (parsed_toggle sig stored parsed param) by done.
      by rewrite Hdest, Hstored.
    + intros st Hst.
      destruct (toggle_unset_bound sig stored parsed param st) as [Hc Hk];
        try done.
      split; [done|]. unfold still_unbound.
      rewrite list_elem_of_filter. intros [Hnone _]. congruence.
Qed.

(** The positional list [parse_args] returns holds, slot by slot, the
    namespace entries of the positional-only parameters. *)
Lemma positional_slots meta parsed positional keywords :
  parse_args meta parsed = Return (positional, keywords) →
  Forall2 (λ param v, parsed !! param_name param = Some v)
    (meta (KIND POSITIONAL_ONLY)) positional.
Proof.
  intros (st & Hst & _ & -> & _)%parse_args_inv.
  apply bind_arguments_inv in Hst as (st1 & st2 & H1 & H2 & H3).
  apply positional_only_pass in H1 as (_ & _ & vs & Hargs & Hvs).
  simpl in *.
  rewrite (keyword_pass_args keyword_only_step _ st2 st) by eauto.
  rewrite (keyword_pass_args positional_or_keyword_step _ st1 st2) by eauto.
  by rewrite Hargs.
Qed.

(** ** Boolean-like positional-only parameters *)

(** X16.  The option of a boolean-like positional-only parameter is
    [store_true] declared as a positional: no coercion, the unset sentinel
    as parse-time default, no token to take.  For a parser that was
    constructed, no two of whose arguments share a destination, every
    invocation [parse_args] returns holds [True] in the slot of such a
    parameter, whatever the command line stored. *)
Theorem presence_flag_always_True sig stored i param positional keywords :
  constructs typecast_factory py_str (__init__ sig) →
  NoDup (destinations (__init__ sig)) →
  __init__ sig (KIND POSITIONAL_ONLY) !! i = Some param →
  boolean_like param = true →
  parse_with (__init__ sig) stored = Return (positional, keywords) →
  opt_action (options_of param) = Some store_true
  ∧ opt_type (options_of param) = None
  ∧ opt_default (options_of param) = Some SUPPRESS
  ∧ positional !! i = Some (PyBool true).
Proof.
  intros _ _ Hi Hbool Hparse.
  assert (param ∈ __init__ sig (KIND POSITIONAL_ONLY)) as Hparam
    by (by eapply list_elem_of_lookup_2).
  assert (param_kind param = POSITIONAL_ONLY) as Hkind.
  { rewrite init_kind, list_elem_of_filter in Hparam. tauto. }
  assert (opt_action (options_of param) = Some store_true) as Haction.
  { rewrite generate_action, Hbool. by rewrite decide_True. }
  assert (tri_state_toggle param = false) as Htoggle.
  { unfold tri_state_toggle. rewrite bool_decide_eq_false_2 by tauto.
    apply andb_false_r. }
  split_and!; [done| | |].
  - by rewrite generate_type, Hbool.
  - by rewrite generate_default, Htoggle.
  - unfold parse_command_line in Hparse.
    destruct (parsed_with (__init__ sig) stored) as [parsed|] eqn:Hparsed;
      [|done].
    simpl in Hparse. apply positional_slots in Hparse.
    destruct (Forall2_lookup_l _ _ _ _ _ Hparse Hi) as (v & Hv & Hentry).
    rewrite (parsed_lookup _ _ _ _ Hparsed) in Hentry.
    rewrite flags_lookup_true in Hentry by done. congruence.
Qed.

(** C3 does not hold of the code.  For [def u(flag: bool, /)] the argument
    is [store_true] declared as a positional: it takes no token and fires on
    every parse, so that with an empty command line the namespace holds
    [True] under [flag] and [parse_args] returns [True] in its slot, not
    [False]. *)
Theorem absent_flag_binds_True :
  let flag := annotated "flag" POSITIONAL_ONLY bool_annotation None in
  opt_action (options_of flag) = Some store_true
  ∧ opt_default (options_of flag) = Some SUPPRESS
  ∧ parsed_with (__init__ sig_flag_po) ∅ = Return {["flag" := PyBool true]}
  ∧ parse_with (__init__ sig_flag_po) ∅ = Return ([PyBool true], ∅).
Proof. split_and!; vm_compute; reflexivity. Qed.

(** ** Positional-only signatures *)

Lemma skip_separator_args argv :
  skip_separator (Arg <$> argv) = (false, Arg <$> argv).
Proof. clear typecast_factory py_str. by destruct argv. Qed.

(** An [argv] whose tokens all read as arguments, none of them [--], is all
    ['A']. *)
Lemma arg_strings_pattern_arguments option_strings argv :
  Forall (λ token, token ≠ "--"
                   ∧ _parse_optional option_strings token = argument_token)
    argv →
  arg_strings_pattern option_strings argv = Some (Arg <$> argv).
Proof.
  clear typecast_factory py_str.
  induction 1 as [|token argv [Hsep Htoken] _ IH]; simpl; [done|].
  rewrite decide_False by done. by rewrite Htoken, IH.
Qed.

(** A token that does not begin with a dash reads as an argument. *)
Lemma plain_token_is_argument option_strings c rest :
  c ≠ "-"%char →
  String c rest ≠ "--"
  ∧ _parse_optional option_strings (String c rest) = argument_token.
Proof.
  clear typecast_factory py_str.
  intros Hc. split; [congruence|].
  unfold _parse_optional. by rewrite bool_decide_eq_false_2.
Qed.

Lemma get_values_token o token :
  token ≠ "--" → _get_values o [token] = convert o token.
Proof.
  clear typecast_factory py_str.
  intros Htoken. unfold _get_values. simpl. by rewrite decide_False.
Qed.

(** One token for one positional that takes one, and none without. *)
Lemma consume_positionals_token param params token argv stored :
  opt_action (options_of param) = None →
  token ≠ "--" →
  consume_positionals typecast_factory py_str (param :: params)
    (Arg <$> token :: argv) stored =
  match convert (options_of param) token with
  | Some value =>
      consume_positionals typecast_factory py_str params (Arg <$> argv)
        (<[param_name param := value]> stored)
  | None => None
  end.
Proof.
  intros Haction Htoken.
  cbn [consume_positionals skip_separator fmap list_fmap].
  rewrite Haction.
  change (list_fmap string pattern_item Arg argv) with (Arg <$> argv).
  rewrite skip_separator_args. cbn [app].
  by rewrite get_values_token.
Qed.

Lemma consume_positionals_empty param params stored :
  opt_action (options_of param) = None →
  consume_positionals typecast_factory py_str (param :: params) [] stored
  = None.
Proof.
  intros Haction. cbn [consume_positionals skip_separator].
  by rewrite Haction.
Qed.

Lemma consume_positionals_lookup params : ∀ argv acc stored,
  NoDup (param_name <$> params) →
  Forall (λ param, opt_action (options_of param) = None) params →
  Forall (λ token, token ≠ "--") argv →
  consume_positionals typecast_factory py_str params (Arg <$> argv) acc
  = Some stored →
  length params = length argv
  ∧ (∀ i param token,
       params !! i = Some param → argv !! i = Some token →
       ∃ v, convert (options_of param) token = Some v
            ∧ stored !! param_name param = Some v)
  ∧ (∀ k, k ∉ param_name <$> params → stored !! k = acc !! k).
Proof.
  induction params as [|x l IH]; intros argv acc stored Hnodup Hplain Hargv.
  - destruct argv; [|done]. intros [= <-]. split_and!; try done.
  - apply Forall_cons in Hplain as [Hx Hplain].
    destruct argv as [|token argv].
    { cbn [fmap list_fmap]. by rewrite consume_positionals_empty. }
    apply Forall_cons in Hargv as [Htoken Hargv].
    rewrite consume_positionals_token by done.
    destruct (convert (options_of x) token) as [v|] eqn:Hv; [|done].
    rewrite fmap_cons in Hnodup. apply NoDup_cons in Hnodup as [Hname Hnodup].
    intros (Hlen & Hstored & Hother)%IH; [|done..].
    split_and!.
    + simpl. by rewrite Hlen.
    + intros [|i] param tok Hi Htok; simpl in *.
      * injection Hi as <-. injection Htok as <-.
        exists v. split; [done|].
        rewrite Hother by done. apply lookup_insert_eq.
      * eauto.
    + intros k Hk. rewrite ?fmap_cons, not_elem_of_cons in Hk.
      destruct Hk as [Hne Hk]. rewrite Hother by done.
      by rewrite lookup_insert_ne.
Qed.

Lemma consume_positionals_total params argv :
  Forall (λ param, opt_action (options_of param) = None) params →
  Forall (λ token, token ≠ "--") argv →
  Forall2 (λ param token, is_Some (convert (options_of param) token))
    params argv →
  ∀ acc, ∃ stored,
    consume_positionals typecast_factory py_str params (Arg <$> argv) acc
    = Some stored.
Proof.
  intros Hplain Hargv Hall. revert Hplain Hargv.
  induction Hall as [|x token l argv [v Hv] Hrest IH];
    intros Hplain Hargv acc; [simpl; eauto|].
  apply Forall_cons in Hplain as [Hx Hplain].
  apply Forall_cons in Hargv as [Htoken Hargv].
  rewrite consume_positionals_token, Hv by done.
  by apply IH.
Qed.

(** C8, as the code has it.  A signature of positional-only, non-boolean
    parameters with distinct names, and an argv with one token per
    parameter, each read as an argument (none is [--] or reads as an
    option) and each accepted by its parameter's coercion: the parse stores
    the tokens, resolution returns, the keyword mapping is empty, and slot
    [i] of the positional list is token [i] passed through the coercion
    [typecast_factory] gives parameter [i], or the token itself as a string
    when it gives none. *)
Theorem positional_only_tokens_in_order sig argv :
  Forall (λ param, param_kind param = POSITIONAL_ONLY
                   ∧ boolean_like param = false) sig →
  NoDup (param_name <$> sig) →
  Forall (λ token, token ≠ "--"
                   ∧ _parse_optional help_option_strings token
                     = argument_token) argv →
  Forall2 (λ param token, is_Some (convert (options_of param) token)) sig argv →
  ∃ stored values,
    store_positionals typecast_factory py_str
      (__init__ sig (KIND POSITIONAL_ONLY)) argv = Some stored
    ∧ parse_with (__init__ sig) stored = Return (values, ∅)
    ∧ length values = length argv
    ∧ ∀ i param token,
        sig !! i = Some param → argv !! i = Some token →
        match typecast_factory param with
        | Some t => values !! i = typecast_call t token
        | None => values !! i = Some (PyStr token)
        end.
Proof.
  intros Hsig Hnodup Htokens Hargv.
  assert (__init__ sig (KIND POSITIONAL_ONLY) = sig) as Hpo.
  { rewrite init_kind. apply filter_all.
    eapply Forall_impl; [done|]. by intros ? [? _]. }
  assert (∀ k, k ≠ POSITIONAL_ONLY → __init__ sig (KIND k) = []) as Hempty.
  { intros k Hk. rewrite init_kind. apply filter_none.
    eapply Forall_impl; [done|]. intros ? [? _]. congruence. }
  assert (Forall (λ param, opt_action (options_of param) = None) sig)
    as Hplain.
  { eapply Forall_impl; [done|]. intros param [_ Hbool]. cbv beta.
    by rewrite generate_action, Hbool. }
  assert (Forall (λ token, token ≠ "--") argv) as Hsep.
  { eapply Forall_impl; [done|]. by intros ? [? _]. }
  destruct (consume_positionals_total sig argv Hplain Hsep Hargv ∅)
    as [stored Hstore].
  destruct (consume_positionals_lookup sig argv ∅ stored Hnodup Hplain Hsep
              Hstore) as (Hlen & Hstored & _).
  assert (Forall (λ param, is_Some (stored !! param_name param)) sig) as Hall.
  { apply Forall_forall. intros param [i Hi]%list_elem_of_lookup.
    destruct (lookup_lt_is_Some_2 argv i) as [token Htoken].
    { rewrite <- Hlen. by eapply lookup_lt_Some. }
    destruct (Hstored i param token Hi Htoken) as (v & _ & Hv). eauto. }
  assert (parsed_with (__init__ sig) stored = Return stored) as Hparsed.
  { rewrite super_parse_args_total.
    2:{ rewrite Hpo. eapply Forall_impl; [apply Hall|]. auto. }
    f_equal. apply map_eq. intros d. rewrite !lookup_union.
    rewrite flags_lookup_None.
    2:{ intros param Hparam _. rewrite Hpo in Hparam.
        rewrite Forall_forall in Hplain. by rewrite (Hplain param Hparam). }
    rewrite defaults_lookup.
    rewrite (Hempty POSITIONAL_OR_KEYWORD), (Hempty KEYWORD_ONLY) by done.
    rewrite (decide_False (P := _ ∧ _)) by (by intros [_ []]).
    rewrite decide_False by (by intros ?%Exists_nil).
    by destruct (stored !! d). }
  destruct (bind_arguments_total (__init__ sig) stored) as [st Hst].
  { by rewrite Hpo. }
  { left. by apply Hempty. }
  pose proof Hst as Hinv.
  apply bind_arguments_inv in Hinv as (st1 & st2 & H1 & H2 & H3).
  rewrite (Hempty POSITIONAL_OR_KEYWORD) in H2 by done.
  rewrite (Hempty KEYWORD_ONLY) in H3 by done. simpl in H2, H3.
  injection H2 as <-. injection H3 as <-.
  apply positional_only_pass in H1 as (Hcmd & Hkw & vs & Hargs & Hvs).
  simpl in *. rewrite Hpo in Hvs.
  exists stored, vs. rewrite Hpo. split_and!.
  - unfold store_positionals.
    by rewrite (arg_strings_pattern_arguments _ _ Htokens).
  - unfold parse_command_line. rewrite Hparsed. simpl.
    rewrite (parse_args_required _ _ st1 Hst).
    assert (still_unbound (__init__ sig) st1 = []) as ->.
    { unfold still_unbound. apply filter_none, Forall_forall.
      intros param Hparam. rewrite init_required, list_elem_of_filter in Hparam.
      destruct Hparam as [_ Hparam].
      rewrite Forall_forall in Hall. destruct (Hall param Hparam) as [v Hv].
      rewrite Hcmd. congruence. }
    by rewrite Hargs, Hkw.
  - rewrite <- Hlen. symmetry. by eapply Forall2_length.
  - intros i param token Hi Htoken.
    destruct (Hstored i param token Hi Htoken) as (v & Hconvert & Hv).
    destruct (Forall2_lookup_l _ _ _ _ _ Hvs Hi) as (v' & Hv' & Hparsed').
    assert (v' = v) as -> by congruence.
    unfold convert in Hconvert. rewrite generate_type in Hconvert.
    rewrite Forall_forall in Hsig.
    destruct (Hsig param) as [_ Hbool]; [by eapply list_elem_of_lookup_2|].
    rewrite Hbool in Hconvert.
    destruct (typecast_factory param); congruence.
Qed.

(** * Further properties of the code *)

(** ** Classification and declared arguments *)

(** X1.  The five kind buckets together hold the signature: put end to end
    they are a rearrangement of it, so that no parameter is lost or filed
    twice whatever its kind. *)
Theorem buckets_rearrange_signature (sig : list parameter) :
  __init__ sig (KIND POSITIONAL_ONLY)
  ++ __init__ sig (KIND POSITIONAL_OR_KEYWORD)
  ++ __init__ sig (KIND VAR_POSITIONAL)
  ++ __init__ sig (KIND KEYWORD_ONLY)
  ++ __init__ sig (KIND VAR_KEYWORD)
  ≡ₚ sig.
Proof.
  rewrite !init_kind. induction sig as [|param sig IH]; [done|].
  rewrite !filter_cons.
  destruct (param_kind param) eqn:Hkind; repeat case_decide; try done;
    simpl; rewrite <- ?Permutation_middle; by constructor.
Qed.

Lemma replace_chars old new s :
  String.list_ascii_of_string (replace old new s) =
  (λ c, if decide (c = old) then new else c) <$> String.list_ascii_of_string s.
Proof. induction s as [|c s IH]; simpl; [done|]. by rewrite IH. Qed.

Lemma list_ascii_of_string_inj s1 s2 :
  String.list_ascii_of_string s1 = String.list_ascii_of_string s2 → s1 = s2.
Proof.
  intros H. rewrite <- (String.string_of_list_ascii_of_string s1).
  rewrite <- (String.string_of_list_ascii_of_string s2). by rewrite H.
Qed.

(** Replacing underscores by dashes loses nothing on a name without dashes. *)
Lemma replace_round_trip s :
  "-"%char ∉ String.list_ascii_of_string s →
  replace "-"%char "_"%char (replace "_"%char "-"%char s) = s.
Proof.
  induction s as [|c s IH]; simpl; [done|].
  intros [Hc Hs]%not_elem_of_cons. rewrite IH by done. f_equal.
  repeat case_decide; congruence.
Qed.

Lemma option_string_chars param :
  String.list_ascii_of_string (option_string param) =
  "-"%char :: "-"%char
  :: ((λ c, if decide (c = "_"%char) then "-"%char else c)
        <$> String.list_ascii_of_string (param_name param)).
Proof.
  unfold option_string. cbv [String.append]. simpl. by rewrite replace_chars.
Qed.

(** X2.  The option string of a parameter has no underscore and is two
    characters longer than the name; two parameters whose names have no dash
    get the same option string only if they have the same name. *)
Theorem option_string_faithful param1 param2 :
  ("_"%char ∉ String.list_ascii_of_string (option_string param1))
  ∧ (String.length (option_string param1)
     = S (S (String.length (param_name param1))))
  ∧ ("-"%char ∉ String.list_ascii_of_string (param_name param1) →
     "-"%char ∉ String.list_ascii_of_string (param_name param2) →
     option_string param1 = option_string param2 →
     param_name param1 = param_name param2).
Proof.
  split_and!.
  - rewrite option_string_chars. rewrite !not_elem_of_cons.
    split_and!; [done..|].
    intros (c & Hc & _)%list_elem_of_fmap. by case_decide.
  - unfold option_string. cbv [String.append]. simpl. f_equal. f_equal.
    induction (param_name param1) as [|c s IH]; simpl; [done|]. by rewrite IH.
  - intros H1 H2 Heq. unfold option_string in Heq.
    cbv [String.append] in Heq.
    injection Heq as Heq.
    rewrite <- (replace_round_trip (param_name param1)) by done.
    rewrite <- (replace_round_trip (param_name param2)) by done.
    by rewrite Heq.
Qed.

(** X3.  An option never carries both an action and a coercion: it has an
    action exactly when the parameter is boolean-like, and a [type] exactly
    when the parameter is not boolean-like and [typecast_factory] gives it a
    function. *)
Theorem action_excludes_type param :
  (opt_action (options_of param) = None ∨ opt_type (options_of param) = None)
  ∧ (is_Some (opt_action (options_of param)) ↔ boolean_like param = true)
  ∧ (is_Some (opt_type (options_of param))
     ↔ boolean_like param = false ∧ is_Some (typecast_factory param)).
Proof.
  rewrite generate_action, generate_type.
  destruct (boolean_like param) eqn:Hbool; simpl.
  - split_and!; [by right| |].
    + split; [done|intros _; by eexists].
    + split; [by intros [? ?]|by intros [? _]].
  - split_and!; [by left| |].
    + split; [by intros [? ?]|done].
    + split; [done|by intros [_ ?]].
Qed.

Lemma option_string_inj param1 param2 :
  "-"%char ∉ String.list_ascii_of_string (param_name param1) →
  "-"%char ∉ String.list_ascii_of_string (param_name param2) →
  option_string param1 = option_string param2 →
  param_name param1 = param_name param2.
Proof.
  intros H1 H2 Heq. unfold option_string in Heq.
  cbv [String.append] in Heq. injection Heq as Heq.
  rewrite <- (replace_round_trip (param_name param1)) by done.
  rewrite <- (replace_round_trip (param_name param2)) by done.
  by rewrite Heq.
Qed.

(** The names and flags handed to [add_argument], in the order of the calls. *)
Lemma declared_names sig :
  arg_name <$> mjoin (group_arguments
                        <$> generate_args typecast_factory py_str (__init__ sig))
  = (param_name <$> __init__ sig (KIND POSITIONAL_ONLY))
    ++ (if __init__ sig (KIND POSITIONAL_OR_KEYWORD) is [] then []
        else _positional_or_kw
             :: (option_string <$> __init__ sig (KIND POSITIONAL_OR_KEYWORD)))
    ++ (option_string <$> __init__ sig (KIND KEYWORD_ONLY)).
Proof.
  unfold generate_args.
  rewrite !fmap_app, !join_app, !fmap_app.
  f_equal; [|f_equal].
  - destruct (__init__ sig (KIND POSITIONAL_ONLY)) as [|x l] eqn:Hl; [done|].
    simpl. rewrite Hl, app_nil_r. simpl.
    by rewrite <- list_fmap_compose.
  - destruct (__init__ sig (KIND POSITIONAL_OR_KEYWORD)) as [|x l] eqn:Hl;
      [done|].
    simpl. rewrite Hl, app_nil_r. simpl.
    by rewrite <- list_fmap_compose.
  - destruct (__init__ sig (KIND KEYWORD_ONLY)) as [|x l] eqn:Hl; [done|].
    simpl. rewrite Hl, app_nil_r. simpl.
    by rewrite <- list_fmap_compose.
Qed.

(** X4.  For a signature whose names are distinct and free of dashes, with
    no positional-only parameter called [_positional_or_kw], no name or flag
    is handed to [add_argument] twice. *)
Theorem declared_names_distinct sig :
  NoDup (param_name <$> sig) →
  Forall (λ param, "-"%char ∉ String.list_ascii_of_string (param_name param))
    sig →
  _positional_or_kw ∉ param_name <$> __init__ sig (KIND POSITIONAL_ONLY) →
  NoDup (arg_name
           <$> mjoin (group_arguments
                        <$> generate_args typecast_factory py_str
                              (__init__ sig))).
Proof.
  intros Hnodup Hdash Hreserved. rewrite declared_names.
  rewrite Forall_forall in Hdash.
  assert (∀ k param, param ∈ __init__ sig (KIND k) →
                     param ∈ sig ∧ param_kind param = k) as Hbucket.
  { intros k param Hparam. rewrite init_kind in Hparam.
    apply list_elem_of_filter in Hparam. by destruct Hparam. }
  assert (∀ k, NoDup (param_name <$> __init__ sig (KIND k))) as Hnames.
  { intros k. apply (sublist_NoDup _ (param_name <$> sig)); [done|].
    rewrite init_kind. apply fmap_sublist, sublist_filter. }
  assert (∀ k, NoDup (option_string <$> __init__ sig (KIND k))) as Hoptions.
  { intros k. apply NoDup_fmap_2_strong; [|by eapply NoDup_fmap_1].
    intros x y [Hx _]%Hbucket [Hy _]%Hbucket Heq.
    eapply parameter_of_name; [done..|].
    apply option_string_inj; auto. }
  assert (∀ k e, e ∈ option_string <$> __init__ sig (KIND k) →
                 "-"%char ∈ String.list_ascii_of_string e) as Hflag.
  { intros k e (param & -> & _)%list_elem_of_fmap.
    rewrite option_string_chars. by left. }
  assert (∀ k, _positional_or_kw ∉ option_string <$> __init__ sig (KIND k))
    as Hcatch.
  { intros k Hin%Hflag. vm_compute in Hin.
    repeat (apply elem_of_cons in Hin as [Hin|Hin]; [done|]).
    by apply elem_of_nil in Hin. }
  assert (∀ e, e ∈ param_name <$> __init__ sig (KIND POSITIONAL_ONLY) →
               "-"%char ∉ String.list_ascii_of_string e) as Hplain.
  { intros e (param & -> & [Hin _]%Hbucket)%list_elem_of_fmap. auto. }
  apply NoDup_app. split_and!; [done| |].
  - intros e He Hother.
    apply elem_of_app in Hother as [Hother|Hother%Hflag];
      [|by apply (Hplain e)].
    destruct (__init__ sig (KIND POSITIONAL_OR_KEYWORD)) as [|x l] eqn:Hl;
      [by apply elem_of_nil in Hother|].
    rewrite <- Hl in Hother.
    apply elem_of_cons in Hother as [->|Hother%Hflag];
      [done|by apply (Hplain e)].
  - apply NoDup_app. split_and!; [| |done].
    + destruct (__init__ sig (KIND POSITIONAL_OR_KEYWORD)) as [|x l] eqn:Hl;
        [constructor|].
      rewrite <- Hl. constructor; [apply Hcatch|apply Hoptions].
    + intros e He Hkw.
      destruct (__init__ sig (KIND POSITIONAL_OR_KEYWORD)) as [|x l] eqn:Hl;
        [by apply elem_of_nil in He|].
      rewrite <- Hl in He.
      apply elem_of_cons in He as [->|He]; [by apply Hcatch in Hkw|].
      apply list_elem_of_fmap in He as (p1 & -> & [Hin1 Hkind1]%Hbucket).
      apply list_elem_of_fmap in Hkw as (p2 & Heq & [Hin2 Hkind2]%Hbucket).
      assert (p1 = p2) as ->; [|congruence].
      eapply parameter_of_name; [done..|].
      apply option_string_inj; auto.
Qed.

End Properties.

(** ** What the loops of [parse_args] can raise *)

Lemma step_catch_all body st param st' :
  binding_step body → body st param = Return st' →
  cmd_args st' !! _positional_or_kw = cmd_args st !! _positional_or_kw
  ∨ ∃ raw rest,
      cmd_args st !! _positional_or_kw = Some (PyList (raw :: rest))
      ∧ cmd_args st' !! _positional_or_kw = Some (PyList rest).
Proof.
  intros Hbody Hstep. step_cases; simpl; try by left.
  right. eexists _, _. split; [done|].
  rewrite lookup_insert_ne by (intros Heq; rewrite Heq in *; congruence).
  by rewrite lookup_insert_eq.
Qed.

Lemma pass_catch_all body l parsed st st' :
  binding_step body → catch_all_kept parsed st →
  for_each body l st = Return st' → catch_all_kept parsed st'.
Proof.
  intros Hbody. apply (for_each_invariant body (catch_all_kept parsed)).
  intros x t t' _ Ht Hx.
  destruct (step_catch_all body t x t' Hbody Hx) as [Heq|(raw & rest & Hl & Hl')].
  - unfold catch_all_kept. by rewrite Heq.
  - destruct Ht as [Ht|(tokens & rest' & Hparsed & _)].
    + right. exists (raw :: rest), rest. by rewrite <- Ht.
    + right. eauto.
Qed.

Lemma bind_arguments_grows meta parsed st :
  bind_arguments meta parsed = Return st →
  grows {| cmd_args := parsed; args := []; kwargs := ∅ |} st.
Proof.
  intros (st1 & st2 & H1 & H2 & H3)%bind_arguments_inv.
  eapply grows_trans; [|eapply grows_trans].
  - eapply (pass_grows positional_only_step); [|done].
    unfold binding_step; tauto.
  - eapply (pass_grows positional_or_keyword_step); [|done].
    unfold binding_step; tauto.
  - eapply (pass_grows keyword_only_step); [|done].
    unfold binding_step; tauto.
Qed.

(** X5.  Once the parse step of line 100 has returned a namespace, every
    way the rest of [parse_args], lines 101-124, can fail, and the namespace
    that causes it:
    [KeyError] on the name of a positional-only parameter that has no entry;
    [KeyError] on [_positional_or_kw] when that entry is missing and some
    positional-or-keyword parameter has no entry of its own; [AttributeError]
    when that entry is not a list and some positional-or-keyword parameter
    has no entry of its own; or the parser error naming a required parameter
    that has no entry. *)
Theorem parse_args_failures meta parsed e :
  parse_args meta parsed = Raise e →
  (∃ param, param ∈ meta (KIND POSITIONAL_ONLY)
            ∧ parsed !! param_name param = None
            ∧ e = KeyError (param_name param))
  ∨ (e = KeyError _positional_or_kw
     ∧ parsed !! _positional_or_kw = None
     ∧ ∃ param, param ∈ meta (KIND POSITIONAL_OR_KEYWORD)
                ∧ parsed !! param_name param = None)
  ∨ (e = AttributeError "pop"
     ∧ (∃ v, parsed !! _positional_or_kw = Some v ∧ ∀ l, v ≠ PyList l)
     ∧ ∃ param, param ∈ meta (KIND POSITIONAL_OR_KEYWORD)
                ∧ parsed !! param_name param = None)
  ∨ (∃ param, param ∈ meta REQUIRED
              ∧ parsed !! param_name param = None
              ∧ e = parser_error (required_message (param_name param))).
Proof.
  intros Hraise.
  destruct (bind_arguments meta parsed) as [st|e'] eqn:Hst.
  - (* the binding loops return: the required check raised *)
    right; right; right.
    rewrite (parse_args_required _ _ st Hst) in Hraise.
    destruct (still_unbound meta st) as [|param rest] eqn:Hunbound; [done|].
    injection Hraise as <-. exists param.
    assert (param ∈ still_unbound meta st) as Hparam
      by (rewrite Hunbound; by left).
    unfold still_unbound in Hparam.
    apply list_elem_of_filter in Hparam as [Hnone Hreq].
    split_and!; [done| |done].
    apply eq_None_not_Some. intros Hsome.
    apply (grows_keys _ _ (bind_arguments_grows _ _ _ Hst)) in Hsome.
    rewrite Hnone in Hsome. by destruct Hsome.
  - unfold parse_args in Hraise. rewrite Hst in Hraise. simpl in Hraise.
    injection Hraise as ->. unfold bind_arguments in Hst.
    destruct (for_each positional_only_step _ _) as [st1|e1] eqn:H1;
      simpl in Hst.
    + apply positional_only_pass in H1 as (Hcmd & _).
      simpl in Hcmd.
      destruct (for_each positional_or_keyword_step _ _) as [st2|e2] eqn:H2;
        simpl in Hst.
      * (* the third loop never raises *)
        destruct (for_each_raise keyword_only_step (λ _, True)
                    (meta (KIND KEYWORD_ONLY)) st2 e)
          as (x & t & _ & _ & Hx); try done.
        unfold keyword_only_step in Hx.
        by destruct (cmd_args t !! param_name x).
      * injection Hst as ->.
        destruct (for_each_raise positional_or_keyword_step
                    (λ t, grows st1 t ∧ catch_all_kept parsed t)
                    (meta (KIND POSITIONAL_OR_KEYWORD)) st1 e)
          as (x & t & Hx & [Hgrows Hkept] & Hstep); try done.
        { intros x t t' _ [Hgrows Hkept] Hx. split.
          - eapply grows_trans; [done|].
            eapply step_grows; [|done]. unfold binding_step; tauto.
          - eapply (pass_catch_all positional_or_keyword_step [x]);
              [unfold binding_step; tauto|done|].
            simpl. by rewrite Hx. }
        { split; [apply grows_refl|]. left. by rewrite Hcmd. }
        unfold positional_or_keyword_step in Hstep.
        destruct (cmd_args t !! param_name x) eqn:Hname; [done|].
        assert (parsed !! param_name x = None) as Hparsed.
        { apply eq_None_not_Some. intros Hsome. rewrite <- Hcmd in Hsome.
          apply (grows_keys _ _ Hgrows) in Hsome.
          rewrite Hname in Hsome. by destruct Hsome. }
        destruct (cmd_args t !! _positional_or_kw) as [v|] eqn:Hcatch.
        -- right; right; left.
           assert (e = AttributeError "pop" ∧ ∀ l, v ≠ PyList l) as [-> Hv].
           { destruct v as [| | | |[|raw rest]]; try done;
               by injection Hstep as <-. }
           split_and!; [done| |eauto].
           exists v. split; [|done].
           destruct Hkept as [<-|(tokens & rest & _ & Hrest)]; [done|].
           rewrite Hcatch in Hrest. injection Hrest as ->. by destruct (Hv rest).
        -- right; left. injection Hstep as <-.
           split_and!; [done| |eauto].
           destruct Hkept as [<-|(tokens & rest & _ & Hrest)]; [done|].
           congruence.
    + injection Hst as ->. left.
      apply positional_only_pass_raise in H1 as (param & Hparam & Hnone & ->).
      eauto.
Qed.

(** ** What the binding loops bind *)

(** X6.  A value the namespace holds under the name of a
    positional-or-keyword or keyword-only parameter is the value bound under
    that name: the named form wins over any leftover token.  (The catch-all
    entry itself is set apart: the loops shorten it.) *)
Theorem namespace_value_is_bound meta parsed param v st :
  param ∈ meta (KIND POSITIONAL_OR_KEYWORD)
  ∨ param ∈ meta (KIND KEYWORD_ONLY) →
  param_name param ≠ _positional_or_kw →
  parsed !! param_name param = Some v →
  bind_arguments meta parsed = Return st →
  kwargs st !! param_name param = Some v
  ∧ cmd_args st !! param_name param = Some v.
Proof.
  intros Hbucket Hname Hparsed (st1 & st2 & H1 & H2 & H3)%bind_arguments_inv.
  apply positional_only_pass in H1 as (Hcmd & Hkw & _). simpl in *.
  assert (cmd_args st1 !! param_name param = Some v) as Hc1
    by (by rewrite Hcmd).
  assert (kwargs st1 !! param_name param = None) as Hk1
    by (by rewrite Hkw, lookup_empty).
  destruct (keyword_pass_value positional_or_keyword_step
              (param_name param) v (meta (KIND POSITIONAL_OR_KEYWORD)) st1 st2)
    as [Hk2 Hbound2]; auto.
  assert (cmd_args st2 !! param_name param = Some v) as Hc2.
  { eapply grows_values; [eapply pass_grows; [|done]|done..].
    unfold binding_step; tauto. }
  destruct (keyword_pass_value keyword_only_step
              (param_name param) v (meta (KIND KEYWORD_ONLY)) st2 st)
    as [Hk3 Hbound3]; auto.
  split.
  - destruct Hbucket as [Hpok|Hkw'].
    + pose proof (Hbound2 param Hpok eq_refl) as Hb.
      destruct Hk3 as [Hnone|]; [|done].
      assert (is_Some (kwargs st !! param_name param)) as [? ?]; [|congruence].
      eapply grows_kwargs; [eapply pass_grows; [|done]|by rewrite Hb].
      unfold binding_step; tauto.
    + by apply (Hbound3 param).
  - eapply grows_values; [eapply pass_grows; [|done]|done..].
    unfold binding_step; tauto.
Qed.

(** A name the namespace does not hold is added to [cmd_args] for a
    positional-or-keyword parameter of that name only. *)
Lemma unbound_name_kept meta parsed k st :
  parsed !! k = None →
  (∀ param, param ∈ meta (KIND POSITIONAL_OR_KEYWORD) → param_name param ≠ k) →
  bind_arguments meta parsed = Return st →
  cmd_args st !! k = None.
Proof.
  intros Hparsed Hpok (st1 & st2 & H1 & H2 & H3)%bind_arguments_inv.
  apply positional_only_pass in H1 as (Hcmd & _). simpl in *.
  assert (cmd_args st2 !! k = None) as Hst2.
  { revert H2.
    apply (for_each_invariant positional_or_keyword_step
             (λ t, cmd_args t !! k = None)); [|by rewrite Hcmd].
    intros x t t' Hx Hc Hstep. apply Hpok in Hx.
    unfold positional_or_keyword_step in Hstep.
    repeat case_match; simplify_eq; simpl; try done.
    rewrite !lookup_insert_ne by congruence. done. }
  revert H3.
  apply (for_each_invariant keyword_only_step
           (λ t, cmd_args t !! k = None)); [|done].
  intros x t t' _ Hc Hstep. unfold keyword_only_step in Hstep.
  repeat case_match; simplify_eq; simpl; done.
Qed.

(** X7.  A name that has no entry in the namespace and is not the name of a
    positional-or-keyword parameter stays unbound, whatever tokens are left
    in the catch-all list: leftover tokens go to positional-or-keyword
    parameters only, and an omitted keyword-only option is simply absent
    from the keyword mapping. *)
Theorem absent_name_stays_unbound meta parsed k st :
  parsed !! k = None →
  (∀ param, param ∈ meta (KIND POSITIONAL_OR_KEYWORD) → param_name param ≠ k) →
  bind_arguments meta parsed = Return st →
  cmd_args st !! k = None ∧ kwargs st !! k = None.
Proof.
  intros Hparsed Hpok (st1 & st2 & H1 & H2 & H3)%bind_arguments_inv.
  apply positional_only_pass in H1 as (Hcmd & Hkw & _). simpl in *.
  assert (cmd_args st1 !! k = None ∧ kwargs st1 !! k = None) as Hst1.
  { rewrite Hcmd, Hkw. by rewrite lookup_empty. }
  assert (cmd_args st2 !! k = None ∧ kwargs st2 !! k = None) as Hst2.
  { revert H2.
    apply (for_each_invariant positional_or_keyword_step
             (λ t, cmd_args t !! k = None ∧ kwargs t !! k = None)); [|done].
    intros x t t' Hx [Hc Hk] Hstep. apply Hpok in Hx.
    unfold positional_or_keyword_step in Hstep.
    repeat case_match; simplify_eq; simpl; try done.
    - by rewrite lookup_insert_ne.
    - rewrite !lookup_insert_ne by congruence. done. }
  revert H3.
  apply (for_each_invariant keyword_only_step
           (λ t, cmd_args t !! k = None ∧ kwargs t !! k = None)); [|done].
  intros x t t' _ [Hc Hk] Hstep. unfold keyword_only_step in Hstep.
  repeat case_match; simplify_eq; simpl; try done.
  rewrite lookup_insert_ne by congruence. done.
Qed.

(** X8.  After the binding loops every key of the keyword mapping is a key
    of [cmd_args], and the name of a positional-or-keyword or keyword-only
    parameter is a key of [cmd_args] only if it is a key of the keyword
    mapping: the required check of lines 120-122, which reads [cmd_args],
    passes such a parameter exactly when it has been bound, by its flag or
    by a leftover token. *)
Theorem required_check_reads_bindings meta parsed st :
  bind_arguments meta parsed = Return st →
  (∀ k, is_Some (kwargs st !! k) → is_Some (cmd_args st !! k))
  ∧ (∀ param,
       param ∈ meta (KIND POSITIONAL_OR_KEYWORD)
       ∨ param ∈ meta (KIND KEYWORD_ONLY) →
       (is_Some (cmd_args st !! param_name param)
        ↔ is_Some (kwargs st !! param_name param))).
Proof.
  intros Hbind.
  assert (∀ k, is_Some (kwargs st !! k) → is_Some (cmd_args st !! k)) as Hkeys.
  { apply bind_arguments_inv in Hbind as (st1 & st2 & H1 & H2 & H3).
    apply positional_only_pass in H1 as (_ & Hkw & _). simpl in Hkw.
    assert (∀ body l t t',
              binding_step body →
              (∀ k, is_Some (kwargs t !! k) → is_Some (cmd_args t !! k)) →
              for_each body l t = Return t' →
              ∀ k, is_Some (kwargs t' !! k) → is_Some (cmd_args t' !! k))
      as Hpass.
    { intros body l t t' Hbody.
      apply (for_each_invariant body
               (λ u, ∀ k, is_Some (kwargs u !! k) → is_Some (cmd_args u !! k))).
      intros x u u' _ Hu Hstep k. step_cases; simpl; try apply Hu.
      - rewrite lookup_insert_is_Some'. intros [<-|?]; eauto.
      - rewrite !lookup_insert_is_Some'. intros [<-|?]; eauto.
      - rewrite lookup_insert_is_Some'. intros [<-|?]; eauto. }
    eapply (Hpass keyword_only_step); [unfold binding_step; tauto| |done].
    eapply (Hpass positional_or_keyword_step);
      [unfold binding_step; tauto| |done].
    intros k. rewrite Hkw, lookup_empty. by intros [? ?]. }
  split; [done|]. intros param Hbucket. split; [|apply Hkeys].
  intros Hbound.
  apply bind_arguments_inv in Hbind as (st1 & st2 & H1 & H2 & H3).
  apply positional_only_pass in H1 as (Hcmd & _). simpl in Hcmd.
  assert (grows st1 st2) as G12.
  { eapply pass_grows; [|done]. unfold binding_step; tauto. }
  assert (grows st2 st) as G23.
  { eapply pass_grows; [|done]. unfold binding_step; tauto. }
  destruct (grows_new _ _ G23 _ Hbound) as [Hbound2|]; [|done].
  destruct Hbucket as [Hpok|Hkw].
  - destruct (grows_new _ _ G12 _ Hbound2) as [Hbound1|];
      [|by eapply grows_kwargs].
    eapply grows_kwargs; [done|].
    eapply keyword_pass_binds; [by left|done..].
  - eapply keyword_pass_binds; [by right|done..].
Qed.

Lemma binding_step_origin meta parsed body x st st' :
  (body = positional_or_keyword_step ∧ x ∈ meta (KIND POSITIONAL_OR_KEYWORD))
  ∨ (body = keyword_only_step ∧ x ∈ meta (KIND KEYWORD_ONLY)) →
  bound_from_namespace meta parsed st →
  body st x = Return st' →
  bound_from_namespace meta parsed st'.
Proof.
  intros Hbody Hinv Hstep. pose proof Hinv as [HA HB HC HD].
  assert (∀ v, cmd_args st !! param_name x = Some v →
               bound_from_namespace meta parsed
                 {| cmd_args := cmd_args st; args := args st;
                    kwargs := <[param_name x := v]> (kwargs st) |}) as Hset.
  { intros v Hv. split; simpl; try done.
    intros k w. destruct (decide (param_name x = k)) as [<-|Hne].
    - rewrite lookup_insert_eq. intros [= <-]. split; [|done].
      exists x. split; [|done]. destruct Hbody as [[_ ?]|[_ ?]]; auto.
    - rewrite lookup_insert_ne by done. apply HA. }
  destruct Hbody as [[-> Hx]|[-> Hx]].
  - unfold positional_or_keyword_step in Hstep.
    destruct (cmd_args st !! param_name x) as [v|] eqn:Hname;
      [injection Hstep as <-; by apply Hset|].
    destruct (cmd_args st !! _positional_or_kw) as [[| | | |[|raw rest]]|]
      eqn:Hcatch; try done; injection Hstep as <-; [done|].
    assert (param_name x ≠ _positional_or_kw) as Hreserved by congruence.
    destruct (HC _ eq_refl) as (tokens & Htokens & [front Hsuffix]).
    assert (parsed !! param_name x = None) as Hparsed.
    { apply eq_None_not_Some. intros Hsome%HD. rewrite Hname in Hsome.
      by destruct Hsome. }
    split; simpl.
    + intros k w. destruct (decide (param_name x = k)) as [<-|Hne].
      * rewrite !lookup_insert_eq. intros [= <-]. split; [eauto|done].
      * rewrite !lookup_insert_ne by done. intros [Hp Hc]%HA. split; [done|].
        intros Hk. rewrite lookup_insert_ne by done. auto.
    + intros k w Hk. destruct (decide (param_name x = k)) as [<-|Hne].
      * rewrite lookup_insert_eq. intros [= <-]. right.
        split_and!; [done|eauto|]. exists tokens. split; [done|].
        rewrite Hsuffix. apply elem_of_app. right. by left.
      * rewrite !lookup_insert_ne by done. by apply HB.
    + intros l. rewrite lookup_insert_ne by done. rewrite lookup_insert_eq.
      intros [= <-]. exists tokens. split; [done|].
      exists (front ++ [raw]). by rewrite <- app_assoc.
    + intros k Hk%HD. rewrite !lookup_insert_is_Some'. auto.
  - unfold keyword_only_step in Hstep.
    destruct (cmd_args st !! param_name x) as [v|] eqn:Hname;
      injection Hstep as <-; [by apply Hset|done].
Qed.

(** X9.  [parse_args] binds nothing of its own: the positional list has one
    slot per positional-only parameter, every key of the keyword mapping is
    the name of a positional-or-keyword or keyword-only parameter, and the
    value under a key other than [_positional_or_kw] is the namespace entry
    of that name or, for a positional-or-keyword parameter without one, one
    of the tokens of the catch-all list. *)
Theorem keyword_values_origin meta parsed positional keywords :
  parse_args meta parsed = Return (positional, keywords) →
  length positional = length (meta (KIND POSITIONAL_ONLY))
  ∧ ∀ k v, keywords !! k = Some v →
      (∃ param, (param ∈ meta (KIND POSITIONAL_OR_KEYWORD)
                 ∨ param ∈ meta (KIND KEYWORD_ONLY))
                ∧ param_name param = k)
      ∧ (k ≠ _positional_or_kw → from_namespace meta parsed k v).
Proof.
  intros Hparse. split.
  { apply positional_slots in Hparse. symmetry. by eapply Forall2_length. }
  apply parse_args_inv in Hparse as (st & Hst & _ & _ & ->).
  apply bind_arguments_inv in Hst as (st1 & st2 & H1 & H2 & H3).
  apply positional_only_pass in H1 as (Hcmd & Hkw & _). simpl in *.
  assert (bound_from_namespace meta parsed st1) as Hst1.
  { split.
    - intros k v. rewrite Hkw, lookup_empty. done.
    - intros k v _. rewrite Hcmd. by left.
    - intros l. rewrite Hcmd. intros Hl. exists l. split; [done|].
      by exists [].
    - intros k. by rewrite Hcmd. }
  assert (bound_from_namespace meta parsed st2) as Hst2.
  { revert H2.
    apply (for_each_invariant positional_or_keyword_step
             (bound_from_namespace meta parsed)); [|done].
    intros x t t' Hx Ht Hstep.
    eapply binding_step_origin; [|done..]. left. done. }
  assert (bound_from_namespace meta parsed st) as [HA HB _ _].
  { revert H3.
    apply (for_each_invariant keyword_only_step
             (bound_from_namespace meta parsed)); [|done].
    intros x t t' Hx Ht Hstep.
    eapply binding_step_origin; [|done..]. right. done. }
  intros k v [Hparam Hentry]%HA. split; [done|].
  intros Hk. apply HB; auto.
Qed.

(** X10.  A signature with a var-positional or var-keyword parameter cannot
    be resolved: no argument is declared for such a parameter, and it has no
    default and so is required.  When its name is the destination of no
    declared argument and nothing is stored under it, [parse_args] raises
    whatever else the command line gives. *)
Theorem var_parameter_never_resolves
    (typecast_factory : parameter → option typecast) (py_str : pyval → string)
    sig stored param :
  NoDup (param_name <$> sig) →
  param ∈ sig →
  param_kind param = VAR_POSITIONAL ∨ param_kind param = VAR_KEYWORD →
  param_default param = None →
  param_name param ∉ destinations (__init__ sig) →
  stored !! param_name param = None →
  ∃ e, parse_command_line typecast_factory py_str (__init__ sig) stored
       = Raise e.
Proof.
  intros Hnodup Hin Hkind Hdefault Hname Hstored.
  unfold parse_command_line.
  destruct (super_parse_args typecast_factory py_str (__init__ sig) stored)
    as [parsed|e] eqn:Hreturn; [|by exists e].
  simpl.
  assert (parsed !! param_name param = None) as Hparsed.
  { rewrite (undeclared_entry typecast_factory py_str sig stored parsed)
      by done. done. }
  destruct (bind_arguments (__init__ sig) parsed) as [st|e] eqn:Hst.
  - rewrite (parse_args_required _ _ st Hst).
    assert (cmd_args st !! param_name param = None) as Hnone.
    { apply (unbound_name_kept (__init__ sig) parsed); [done| |done].
      intros q Hq Heq. rewrite init_kind in Hq.
      apply list_elem_of_filter in Hq as [Hq Hqin].
      rewrite (parameter_of_name sig q param Hnodup Hqin Hin Heq) in Hq.
      rewrite Hq in Hkind. by destruct Hkind. }
    assert (param ∈ still_unbound (__init__ sig) st) as Hunbound.
    { unfold still_unbound. apply list_elem_of_filter. split; [done|].
      rewrite init_required. by apply list_elem_of_filter. }
    destruct (still_unbound (__init__ sig) st);
      [by apply elem_of_nil in Hunbound|eauto].
  - exists e. unfold parse_args. by rewrite Hst.
Qed.

(** ** Stub names *)

Lemma string_length_chars s :
  String.length s = length (String.list_ascii_of_string s).
Proof. induction s as [|c s IH]; simpl; [done|]. by rewrite IH. Qed.

Lemma append_chars s1 s2 :
  String.list_ascii_of_string (s1 +:+ s2) =
  String.list_ascii_of_string s1 ++ String.list_ascii_of_string s2.
Proof.
  induction s1 as [|c s1 IH]; cbv [String.append]; simpl; [done|].
  f_equal. apply IH.
Qed.

Lemma escape_chars path :
  String.list_ascii_of_string (escape path) =
  escaped_char <$> String.list_ascii_of_string path.
Proof.
  unfold escape. simpl. rewrite !replace_chars, <- !list_fmap_compose.
  apply list_fmap_ext. intros _ c _. unfold compose, escaped_char.
  case_bool_decide as Hc.
  - destruct Hc as [-> | [-> | ->]]; done.
  - repeat case_decide; try done; exfalso; apply Hc; auto.
Qed.

Lemma escaped_char_fixed c : escaped_char (escaped_char c) = escaped_char c.
Proof.
  unfold escaped_char.
  destruct (bool_decide (c = "."%char ∨ c = " "%char ∨ c = "/"%char)) eqn:Hc;
    [reflexivity|by rewrite Hc].
Qed.

(** X11.  [escape] turns every dot, space and slash into an underscore and
    leaves every other character, and so the length, as it was: its result
    holds none of the three characters, and escaping it again changes
    nothing. *)
Theorem escape_replaces_separators path :
  String.list_ascii_of_string (escape path)
  = escaped_char <$> String.list_ascii_of_string path
  ∧ String.length (escape path) = String.length path
  ∧ Forall (λ c, c ≠ "."%char ∧ c ≠ " "%char ∧ c ≠ "/"%char)
      (String.list_ascii_of_string (escape path))
  ∧ escape (escape path) = escape path.
Proof.
  split_and!.
  - apply escape_chars.
  - by rewrite !string_length_chars, escape_chars, length_fmap.
  - rewrite escape_chars. apply Forall_fmap, Forall_forall. intros c _.
    unfold compose, escaped_char. case_bool_decide as Hc; [done|].
    split_and!; intros ->; apply Hc; auto.
  - apply list_ascii_of_string_inj. rewrite !escape_chars.
    rewrite <- list_fmap_compose. apply list_fmap_ext. intros _ c _.
    apply escaped_char_fixed.
Qed.

(** X12.  [escape] works character by character, so it goes through a
    concatenation; and two module paths that differ only in having a dot, a
    space or a slash where the other has an underscore get the same stub
    name. *)
Theorem stub_names_collide s1 s2 c :
  c = "."%char ∨ c = " "%char ∨ c = "/"%char →
  escape (s1 +:+ s2) = escape s1 +:+ escape s2
  ∧ stub_name (s1 +:+ String c s2) = stub_name (s1 +:+ String "_"%char s2).
Proof.
  intros Hc.
  assert (∀ a b, escape (a +:+ b) = escape a +:+ escape b) as Happ.
  { intros a b. apply list_ascii_of_string_inj.
    rewrite append_chars, !escape_chars, append_chars. apply fmap_app. }
  split; [apply Happ|].
  unfold stub_name. f_equal. rewrite !Happ. f_equal.
  apply list_ascii_of_string_inj. rewrite !escape_chars. simpl. f_equal.
  unfold escaped_char. rewrite bool_decide_eq_true_2 by done.
  by rewrite bool_decide_eq_false_2 by (intros [|[|]]; done).
Qed.

(** X13.  The stub name is the escaped path followed by [.sh]: it has no
    slash, so it names a file directly under the stubs directory, and its
    only dot is the one of the extension. *)
Theorem stub_name_is_one_component module_path :
  String.list_ascii_of_string (stub_name module_path)
  = (escaped_char <$> String.list_ascii_of_string module_path)
    ++ ["."%char; "s"%char; "h"%char]
  ∧ ("/"%char ∉ String.list_ascii_of_string (stub_name module_path))
  ∧ ∀ i, String.list_ascii_of_string (stub_name module_path) !! i
         = Some "."%char →
         i = String.length module_path.
Proof.
  assert (String.list_ascii_of_string (stub_name module_path)
          = (escaped_char <$> String.list_ascii_of_string module_path)
            ++ ["."%char; "s"%char; "h"%char]) as Hchars.
  { unfold stub_name. by rewrite append_chars, escape_chars. }
  assert (∀ c, c ∈ escaped_char <$> String.list_ascii_of_string module_path →
               c ≠ "."%char ∧ c ≠ "/"%char) as Hescaped.
  { intros c (c' & -> & _)%list_elem_of_fmap. unfold escaped_char.
    case_bool_decide as Hc; [done|]. split; intros ->; apply Hc; auto. }
  split_and!; [done| |].
  - rewrite Hchars, elem_of_app. intros [Hin%Hescaped|Hin]; [by destruct Hin|].
    repeat (apply elem_of_cons in Hin as [Hin|Hin]; [done|]).
    by apply elem_of_nil in Hin.
  - intros i. rewrite Hchars. intros Hi.
    apply lookup_app_Some in Hi as [Hi|[Hlen Hi]].
    + apply list_elem_of_lookup_2, Hescaped in Hi. by destruct Hi.
    + rewrite length_fmap, <- string_length_chars in Hlen, Hi.
      destruct (i - String.length module_path) as [|[|[|n]]] eqn:Hn;
        simpl in Hi; try done. lia.
Qed.

(** * Instances *)

(** The arguments declared for [def f(a, /, b=1, *, c)], in order. *)
Example sig_f_declared :
  arg_name <$> mjoin (group_arguments
                        <$> generate_args sample_typecast_factory sample_str
                              (__init__ sig_f))
  = ["a"; "_positional_or_kw"; "--b"; "--c"].
Proof. reflexivity. Qed.

Example option_string_dashes :
  option_string (plain "dry_run" KEYWORD_ONLY (Some (PyBool false)))
  = "--dry-run".
Proof. reflexivity. Qed.

(** The option of a declared-integer parameter with a default. *)
Example int_option :
  let o := generate_arg_options sample_typecast_factory sample_str
             (annotated "n" POSITIONAL_OR_KEYWORD (other_annotation "int")
                (Some (PyInt 0))) in
  typecast_name <$> opt_type o = Some "int"
  ∧ opt_default o = Some SUPPRESS
  ∧ opt_metavar o = Some "/ n"
  ∧ opt_help o = Some (Given "int (default: 0)").
Proof. split_and!; reflexivity. Qed.



(** C2 fails as stated.  The option generated for the required boolean-like
    keyword-only parameter of [def t( *, flag: bool)] has no [default] at
    all, so its parse-time default is not the unset sentinel; with the toggle
    given in neither form the parameter is bound, to [None], and resolution
    returns although the parameter is required. *)
Lemma toggle_default_is_not_unset :
  let flag := annotated "flag" KEYWORD_ONLY bool_annotation None in
  __init__ sig_flag_kw REQUIRED = [flag]
  ∧ opt_default (generate_arg_options sample_typecast_factory sample_str flag)
    = None
  ∧ sample_parse sig_flag_kw ∅ = Return ([], {["flag" := PyNone]}).
Proof. split_and!; reflexivity. Qed.

Lemma parse_time_defaults_witness :
  let flag := annotated "flag" KEYWORD_ONLY bool_annotation None in
  let parsed : gmap string pyval := {["flag" := PyNone]} in
  let st := {| cmd_args := parsed; args := []; kwargs := {["flag" := PyNone]} |} in
  flag ∈ sig_flag_kw
  ∧ option_dest (option_string flag) = "flag"
  ∧ sample_parsed sig_flag_kw ∅ = Return parsed
  ∧ bind_arguments (__init__ sig_flag_kw) parsed = Return st
  ∧ parsed !! "flag" = Some PyNone
  ∧ kwargs st !! "flag" = Some PyNone
  ∧ flag ∉ still_unbound (__init__ sig_flag_kw) st.
Proof.
  intros flag parsed st.
  assert (flag ∈ sig_flag_kw) as Hin by apply list_elem_of_singleton, eq_refl.
  assert (bind_arguments (__init__ sig_flag_kw) parsed = Return st)
    as Hst by reflexivity.
  assert (constructs sample_typecast_factory sample_str (__init__ sig_flag_kw))
    as Hconstructs by compute_done.
  assert (NoDup (destinations (__init__ sig_flag_kw))) as Hnodup
    by compute_done.
  assert (sample_parsed sig_flag_kw ∅ = Return parsed) as Hreturn
    by reflexivity.
  destruct (proj2 (proj2 (proj2 (parse_time_defaults
                                   sample_typecast_factory sample_str)))
              sig_flag_kw ∅ parsed flag Hconstructs Hnodup Hin
              (or_intror eq_refl) eq_refl eq_refl (lookup_empty _) Hreturn)
    as [Hparsed Hbound].
  destruct (Hbound st Hst) as [Hk Hunbound]. by split_and!.
Defined.

Lemma catch_all_claimed_in_order_witness :
  let tokens := [PyStr "5"; PyStr "6"; PyStr "7"] in
  let st := {| cmd_args := {[_positional_or_kw := PyList tokens]};
               args := []; kwargs := ∅ |} in
  NoDup (param_name <$> sig_xy)
  ∧ unset_parameters st sig_xy = sig_xy
  ∧ ∃ st',
      for_each positional_or_keyword_step sig_xy st = Return st'
      ∧ cmd_args st' !! _positional_or_kw = Some (PyList [PyStr "7"])
      ∧ kwargs st' !! "x" = Some (PyStr "5")
      ∧ kwargs st' !! "y" = Some (PyStr "6").
Proof.
  intros tokens st.
  assert (NoDup (param_name <$> sig_xy)) as Hnodup.
  { compute_done. }
  split_and!; [done|reflexivity|].
  destruct (proj1 (catch_all_claimed_in_order
                     sample_typecast_factory sample_str)
              sig_xy tokens st Hnodup eq_refl)
    as (st' & Hpass & Hleft & Hbound & _).
  exists st'. split_and!; [done..| |].
  - apply (Hbound 0 (plain "x" POSITIONAL_OR_KEYWORD (Some (PyInt 0))));
      reflexivity.
  - apply (Hbound 1 (plain "y" POSITIONAL_OR_KEYWORD (Some (PyInt 0))));
      reflexivity.
Defined.


(** C8 fails as stated.  For [def s(s, /)] and the one token [--help],
    which the parameter's coercion (none) would accept as it stands, the
    token is read as the help option and the parse ends without a
    namespace. *)
Lemma help_token_is_no_value :
  Forall (λ param, param_kind param = POSITIONAL_ONLY
                   ∧ boolean_like param = false) sig_s
  ∧ length ["--help"] = length sig_s
  ∧ convert (generate_arg_options sample_typecast_factory sample_str
               (plain "s" POSITIONAL_ONLY None)) "--help"
    = Some (PyStr "--help")
  ∧ _parse_optional help_option_strings "--help" = option_token
  ∧ store_positionals sample_typecast_factory sample_str
      (__init__ sig_s (KIND POSITIONAL_ONLY)) ["--help"] = None.
Proof. split_and!; [repeat constructor|reflexivity..]. Qed.

Lemma positional_only_tokens_witness :
  ∃ stored,
    store_positionals sample_typecast_factory sample_str
      (__init__ sig_ns (KIND POSITIONAL_ONLY)) ["12"; "abc"] = Some stored
    ∧ sample_parse sig_ns stored = Return ([PyInt 12; PyStr "abc"], ∅).
Proof.
  destruct (positional_only_tokens_in_order sample_typecast_factory sample_str
              sig_ns ["12"; "abc"])
    as (stored & values & Hstore & Hparse & Hlen & Hvalues).
  - repeat constructor.
  - compute_done.
  - repeat constructor; discriminate.
  - repeat constructor; vm_compute; eauto.
  - exists stored. split; [done|]. rewrite Hparse.
    pose proof (Hvalues 0 _ _ eq_refl eq_refl) as H0.
    pose proof (Hvalues 1 _ _ eq_refl eq_refl) as H1.
    destruct values as [|v0 [|v1 [|v2 values]]]; try done.
    simpl in H0, H1. vm_compute in H0. by simplify_eq.
Defined.

Lemma catch_all_token_bound_raw_witness :
  let n := annotated "n" POSITIONAL_OR_KEYWORD (other_annotation "int")
             (Some (PyInt 0)) in
  let st := {| cmd_args := {[_positional_or_kw := PyList [PyStr "5"]]};
               args := []; kwargs := ∅ |} in
  (typecast_call <$> sample_typecast_factory n) = Some (typecast_call int_typecast)
  ∧ typecast_call int_typecast "5" = Some (PyInt 5)
  ∧ ∀ st', positional_or_keyword_step st n = Return st' →
           kwargs st' !! "n" = Some (PyStr "5").
Proof.
  intros n st. split_and!; [reflexivity..|].
  apply (catch_all_token_bound_raw sample_typecast_factory sample_str
           n st "5" []); reflexivity.
Defined.

(** ** Instances of the further properties *)

Lemma option_string_faithful_witness :
  let param := plain "dry_run" KEYWORD_ONLY (Some (PyBool false)) in
  option_string param = "--dry-run"
  ∧ param_name param = param_name param.
Proof.
  intros param. split; [reflexivity|].
  apply (proj2 (proj2 (option_string_faithful param param)));
    [compute_done..|reflexivity].
Defined.

Lemma declared_names_distinct_witness :
  NoDup (param_name <$> sig_f)
  ∧ NoDup (arg_name
             <$> mjoin (group_arguments
                          <$> generate_args sample_typecast_factory sample_str
                                (__init__ sig_f))).
Proof.
  assert (NoDup (param_name <$> sig_f)) as Hnodup by compute_done.
  split; [done|].
  apply (declared_names_distinct sample_typecast_factory sample_str sig_f Hnodup);
    [|compute_done].
  unfold sig_f. repeat constructor; compute_done.
Defined.

Lemma parse_args_failures_witness :
  parse_args (__init__ sig_ck) ∅ = Raise (parser_error (required_message "c"))
  ∧ ∃ param,
      param ∈ __init__ sig_ck REQUIRED
      ∧ (∅ : gmap string pyval) !! param_name param = None
      ∧ parser_error (required_message "c")
        = parser_error (required_message (param_name param)).
Proof.
  assert (parse_args (__init__ sig_ck) ∅
          = Raise (parser_error (required_message "c"))) as Hraise
    by reflexivity.
  split; [done|].
  destruct (parse_args_failures (__init__ sig_ck) ∅
              (parser_error (required_message "c")) Hraise)
    as [(param & _ & _ & Heq)|[(Heq & _)|[(Heq & _)|Hrequired]]];
    [discriminate..|exact Hrequired].
Defined.

Lemma namespace_value_is_bound_witness :
  ∃ st, bind_arguments (__init__ sig_f) parsed_f_named = Return st
        ∧ kwargs st !! "b" = Some (PyInt 7)
        ∧ cmd_args st !! _positional_or_kw
          = Some (PyList [PyStr "5"; PyStr "6"]).
Proof.
  eexists. split; [reflexivity|]. split; [|reflexivity].
  apply (namespace_value_is_bound (__init__ sig_f) parsed_f_named
           (plain "b" POSITIONAL_OR_KEYWORD (Some (PyInt 1))) (PyInt 7)).
  - left. apply list_elem_of_singleton. reflexivity.
  - vm_compute. discriminate.
  - reflexivity.
  - reflexivity.
Defined.

Lemma absent_name_stays_unbound_witness :
  ∃ st, bind_arguments (__init__ sig_f) parsed_f_tokens = Return st
        ∧ kwargs st !! "b" = Some (PyStr "5")
        ∧ cmd_args st !! _positional_or_kw = Some (PyList [PyStr "6"])
        ∧ cmd_args st !! "c" = None ∧ kwargs st !! "c" = None.
Proof.
  eexists. split; [reflexivity|]. split_and!; [reflexivity..| |].
  all: apply (absent_name_stays_unbound (__init__ sig_f) parsed_f_tokens "c");
    [reflexivity| |reflexivity].
  all: intros param Hparam%list_elem_of_singleton; by subst.
Defined.

Lemma required_check_reads_bindings_witness :
  ∃ st, bind_arguments (__init__ sig_f) parsed_f_tokens = Return st
        ∧ (is_Some (cmd_args st !! "b") ↔ is_Some (kwargs st !! "b"))
        ∧ (is_Some (cmd_args st !! "c") ↔ is_Some (kwargs st !! "c")).
Proof.
  eexists. split; [reflexivity|].
  split.
  - apply (proj2 (required_check_reads_bindings (__init__ sig_f)
                    parsed_f_tokens _ eq_refl)
             (plain "b" POSITIONAL_OR_KEYWORD (Some (PyInt 1)))).
    left. apply list_elem_of_singleton. reflexivity.
  - apply (proj2 (required_check_reads_bindings (__init__ sig_f)
                    parsed_f_tokens _ eq_refl)
             (plain "c" KEYWORD_ONLY None)).
    right. apply list_elem_of_singleton. reflexivity.
Defined.

Lemma keyword_values_origin_witness :
  let parsed : gmap string pyval :=
    {["a" := PyStr "1"; "c" := PyStr "3";
      _positional_or_kw := PyList [PyStr "5"]]} in
  parse_args (__init__ sig_f) parsed
  = Return ([PyStr "1"], {["b" := PyStr "5"; "c" := PyStr "3"]})
  ∧ from_namespace (__init__ sig_f) parsed "b" (PyStr "5")
  ∧ from_namespace (__init__ sig_f) parsed "c" (PyStr "3").
Proof.
  intros parsed.
  assert (parse_args (__init__ sig_f) parsed
          = Return ([PyStr "1"], {["b" := PyStr "5"; "c" := PyStr "3"]}))
    as Hparse by reflexivity.
  split; [done|].
  destruct (keyword_values_origin _ _ _ _ Hparse) as [_ Horigin].
  split.
  - apply (Horigin "b" (PyStr "5")); [reflexivity|]. vm_compute. discriminate.
  - apply (Horigin "c" (PyStr "3")); [reflexivity|]. vm_compute. discriminate.
Defined.

Lemma var_parameter_never_resolves_witness :
  destinations (__init__ sig_star) = []
  ∧ ∃ e, sample_parse sig_star ∅ = Raise e.
Proof.
  split; [reflexivity|].
  apply (var_parameter_never_resolves sample_typecast_factory sample_str
           sig_star ∅ (plain "args" VAR_POSITIONAL None)).
  - compute_done.
  - apply list_elem_of_singleton. reflexivity.
  - by left.
  - reflexivity.
  - by intros ?%elem_of_nil.
  - reflexivity.
Defined.

Lemma boolean_like_claims_no_token_witness :
  let n := annotated "n" POSITIONAL_OR_KEYWORD (other_annotation "int")
             (Some (PyInt 0)) in
  let verbose := plain "verbose" POSITIONAL_OR_KEYWORD (Some (PyBool false)) in
  let stored : gmap string pyval := {[_positional_or_kw := PyList [PyStr "7"]]} in
  let parsed : gmap string pyval :=
    {["verbose" := PyNone; _positional_or_kw := PyList [PyStr "7"]]} in
  let st := {| cmd_args := {["n" := PyStr "7"; "verbose" := PyNone;
                             _positional_or_kw := PyList []]};
               args := []; kwargs := {["n" := PyStr "7"]} |} in
  __init__ sig_n_verbose (KIND POSITIONAL_OR_KEYWORD) = [n] ++ verbose :: []
  ∧ boolean_like verbose = true
  ∧ option_dest (option_string verbose) = "verbose"
  ∧ sample_parsed sig_n_verbose stored = Return parsed
  ∧ positional_or_keyword_step st verbose
    = Return {| cmd_args := cmd_args st; args := [];
                kwargs := {["n" := PyStr "7"; "verbose" := PyNone]} |}.
Proof.
  intros n verbose stored parsed st.
  split_and!; [reflexivity..|].
  apply (boolean_like_claims_no_token sample_typecast_factory sample_str
           sig_n_verbose stored parsed verbose [n] [] st);
    [compute_done|compute_done|reflexivity..].
Defined.

Lemma toggle_unset_binds_None_witness :
  let flag := annotated "flag" KEYWORD_ONLY bool_annotation None in
  let parsed : gmap string pyval := {["flag" := PyNone]} in
  flag ∈ __init__ sig_flag_kw REQUIRED
  ∧ sample_parsed sig_flag_kw ∅ = Return parsed
  ∧ ∀ positional keywords,
      parse_args (__init__ sig_flag_kw) parsed = Return (positional, keywords) →
      keywords !! "flag" = Some PyNone.
Proof.
  intros flag parsed.
  assert (flag ∈ sig_flag_kw) as Hin by apply list_elem_of_singleton, eq_refl.
  split; [apply list_elem_of_singleton; reflexivity|].
  split; [reflexivity|].
  assert (constructs sample_typecast_factory sample_str (__init__ sig_flag_kw))
    as Hconstructs by compute_done.
  assert (NoDup (destinations (__init__ sig_flag_kw))) as Hnodup
    by compute_done.
  assert (sample_parsed sig_flag_kw ∅ = Return parsed) as Hparsed
    by reflexivity.
  pose proof (toggle_unset_binds_None sample_typecast_factory sample_str
                sig_flag_kw ∅ parsed flag Hconstructs Hnodup Hin
                (or_intror eq_refl) eq_refl eq_refl (lookup_empty _) Hparsed)
    as (_ & Hreturn & _).
  exact Hreturn.
Defined.

Lemma presence_flag_always_True_witness :
  let flag := annotated "flag" POSITIONAL_ONLY bool_annotation None in
  sample_parse sig_flag_po ∅ = Return ([PyBool true], ∅)
  ∧ [PyBool true] !! 0%nat = Some (PyBool true).
Proof.
  intros flag.
  assert (sample_parse sig_flag_po ∅ = Return ([PyBool true], ∅)) as Hparse
    by reflexivity.
  split; [done|].
  apply (presence_flag_always_True sample_typecast_factory sample_str
           sig_flag_po ∅ 0 flag [PyBool true] ∅);
    [compute_done|compute_done|reflexivity..].
Defined.

Lemma stub_names_collide_witness :
  stub_name "/home/u/a/b.py" = "_home_u_a_b_py.sh"
  ∧ stub_name ("/home/u/a" +:+ String "/"%char "b.py")
    = stub_name ("/home/u/a" +:+ String "_"%char "b.py").
Proof.
  split; [reflexivity|].
  apply (stub_names_collide "/home/u/a" "b.py" "/"%char). auto.
Defined.

Lemma stub_name_is_one_component_witness :
  String.list_ascii_of_string (stub_name "/tmp/my mod.py") !! 14%nat
  = Some "."%char
  ∧ 14%nat = String.length "/tmp/my mod.py".
Proof.
  split; [reflexivity|].
  apply (proj2 (proj2 (stub_name_is_one_component "/tmp/my mod.py")) 14%nat).
  reflexivity.
Defined.
